(** * AdventureForge: the story graph, its editor and its player

    A shallow embedding of the story document of AdventureForge
    (types.ts), of the handlers of [StoryEditor.tsx], [StoryPlayer.tsx]
    and [App.tsx] that read or write it, and the properties of the
    story-graph engine checked against them.

    Modelling conventions.
    - A [Record<string, StoryNode>] is a finite map [gmap string StoryNode].
    - The handlers write [const newStory = { ...story }] and then assign
      into [newStory.nodes]: the spread copies the top-level fields only,
      so [newStory.nodes] and [story.nodes] are one JavaScript object and
      the assignment is an in-place update seen through every alias.  The
      [nodes] field of a [Story] is therefore an object identity (a heap
      address) and the contents live in a [Heap].
    - [Date.now()] is an input of the handler that calls it.
    - [confirm(...)] is the boolean the user answers; [alert(...)] appends
      to the list of messages shown. *)

From Stdlib Require Import Ascii.
From stdpp Require Import base option list strings gmap pretty.

Open Scope string_scope.

(** ** Data model (types.ts) *)

Record Choice := mkChoice {
  choice_id : string;
  text : string;
  targetNodeId : string
}.

Record StoryNode := mkNode {
  node_id : string;
  title : string;
  content : string;
  choices : list Choice;
  isAiGenerated : option bool;
  imageUrl : option string
}.

(** [nodes] holds the identity of the [Record<string, StoryNode>] object;
    [story_id] and [imageStyle] are optional in documents that come from a
    file. *)
Record Story := mkStory {
  story_id : option string;
  name : string;
  nodes : nat;
  startNodeId : string;
  imageStyle : option string
}.

#[global] Instance Choice_eq_dec : EqDecision Choice.
Proof. solve_decision. Defined.
#[global] Instance StoryNode_eq_dec : EqDecision StoryNode.
Proof. solve_decision. Defined.
#[global] Instance Story_eq_dec : EqDecision Story.
Proof. solve_decision. Defined.

Abbreviation NodeMap := (gmap string StoryNode).
Abbreviation Heap := (gmap nat (gmap string StoryNode)).

(** Reading [story.nodes]: the object at that address. *)
Definition deref (h : Heap) (r : nat) : NodeMap := default ∅ (h !! r).

(** The part of the application state that every view shares: the heap,
    the [story] cell of [App] and the alerts shown so far. *)
Record App := mkApp {
  heap : Heap;
  story : Story;
  alerts : list string
}.

Definition doc_nodes (a : App) : NodeMap := deref (heap a) (nodes (story a)).

(** [handleUpdateStory] of App.tsx: the cell is replaced.  (Writing the
    document to local storage is outside the model.) *)
Definition handleUpdateStory (newStory : Story) (a : App) : App :=
  mkApp (heap a) newStory (alerts a).

(** [newStory.nodes[k] = v] for [newStory = { ...story }]. *)
Definition assignNode (s : Story) (k : string) (v : StoryNode) (a : App) : App :=
  mkApp (<[nodes s := <[k := v]> (deref (heap a) (nodes s))]> (heap a))
        (story a) (alerts a).

Definition alert (msg : string) (a : App) : App :=
  mkApp (heap a) (story a) (alerts a ++ [msg]).

(** Invariant 2 of the data model: the start node exists. *)
Definition start_valid (a : App) : Prop :=
  is_Some (doc_nodes a !! startNodeId (story a)).

(** JavaScript truthiness of an optional string: present and non-empty. *)
Definition truthy (o : option string) : bool :=
  match o with
  | Some s => bool_decide (s ≠ "")
  | None => false
  end.

(** [o || d] for an optional string [o]. *)
Definition or_else (o : option string) (d : string) : string :=
  match o with
  | Some s => if bool_decide (s ≠ "") then s else d
  | None => d
  end.

(** The [nodes] object is a plain object, made by an object literal or
    by [JSON.parse]: a read [nodes[k]] that finds no own property [k] goes
    on to [Object.prototype].  These are the names found there; each read
    yields a function (for [__proto__] the prototype object itself), which
    is truthy. *)
Definition Object_prototype : list string :=
  ["constructor"; "hasOwnProperty"; "isPrototypeOf"; "propertyIsEnumerable";
   "toLocaleString"; "toString"; "valueOf"; "__proto__"; "__defineGetter__";
   "__defineSetter__"; "__lookupGetter__"; "__lookupSetter__"].

Definition inherited (k : string) : bool := bool_decide (k ∈ Object_prototype).

(** A string without the separator ["-"]: what a printed number is. *)
Fixpoint no_dash (s : string) : Prop :=
  match s with
  | EmptyString => True
  | String a s' => a ≠ "-"%char ∧ no_dash s'
  end.

(** ** Graph query layer: orphan detection (StoryEditor.tsx, lines 73-79) *)

(** The body of the [linkedNodeIds] memo: every [targetNodeId] of every
    choice of every node. *)
Definition linkedNodeIds_of (m : NodeMap) : gset string :=
  list_to_set (map_to_list m ≫= λ kv, targetNodeId <$> choices kv.2).

(** ** The editor (StoryEditor.tsx) *)

Module Editor.

(** [linkedNodeIds] is a [useMemo] cell: the dependency it was computed
    for (the identity of [story.nodes]) and the cached set.  [crashed]
    records that a render threw, which unmounts the component tree. *)
Record State := mkState {
  app : App;
  selectedNodeId : option string;
  editNode : option StoryNode;
  linkedNodeIds : nat * gset string;
  crashed : bool
}.

Definition with_app (f : App → App) (st : State) : State :=
  mkState (f (app st)) (selectedNodeId st) (editNode st) (linkedNodeIds st)
          (crashed st).

Definition setEditNode (n : option StoryNode) (st : State) : State :=
  mkState (app st) (selectedNodeId st) n (linkedNodeIds st) (crashed st).

(** Mounting the component on the current document: the initial values of
    the [useState] cells and the first evaluation of the memo. *)
Definition mount (a : App) : State :=
  mkState a (Some (startNodeId (story a)))
          (doc_nodes a !! startNodeId (story a))
          (nodes (story a), linkedNodeIds_of (doc_nodes a))
          false.

(** A render: [useMemo] re-evaluates its body only when the dependency
    [story.nodes] is not identical to the one of the previous render. *)
Definition render (st : State) : State :=
  if decide (fst (linkedNodeIds st) = nodes (story (app st))) then st
  else mkState (app st) (selectedNodeId st) (editNode st)
               (nodes (story (app st)), linkedNodeIds_of (doc_nodes (app st)))
               (crashed st).

(** Line 342, evaluated for a node of the sidebar list. *)
Definition isOrphan (st : State) (node : StoryNode) : bool :=
  bool_decide (node_id node ≠ startNodeId (story (app st)))
  && negb (bool_decide (node_id node ∈ snd (linkedNodeIds st))).

(** [handleSelectNode], reading through the [story] of the handler's
    closure.  For an id that is not a key, [{ ...undefined }] is the empty
    object: the next render throws on [editNode.choices.map]. *)
Definition handleSelectNode (s : Story) (id : string) (st : State) : State :=
  match deref (heap (app st)) (nodes s) !! id with
  | Some n => mkState (app st) (Some id) (Some n) (linkedNodeIds st) (crashed st)
  | None => mkState (app st) (Some id) None (linkedNodeIds st) true
  end.

Definition handleSaveNode (st : State) : State :=
  match editNode st with
  | None => st
  | Some en =>
      let s := story (app st) in
      with_app (λ a, alert "Scene preserved in saga memory."
                       (handleUpdateStory s (assignNode s (node_id en) en a))) st
  end.

Definition newNodeId (now : N) : string := "node-" +:+ pretty now.

Definition newNode (now : N) : StoryNode :=
  mkNode (newNodeId now) "New Chapter" "A new thread begins..." [] None None.

Definition handleAddNode (now : N) (st : State) : State :=
  let s := story (app st) in
  handleSelectNode s (newNodeId now)
    (with_app (λ a, handleUpdateStory s
                      (assignNode s (newNodeId now) (newNode now) a)) st).

(** The cascade of [handleDeleteNode]: on the one [nodes] object, delete
    the key, then replace every remaining node's [choices] by its filter. *)
Definition pruneChoices (id : string) (n : StoryNode) : StoryNode :=
  mkNode (node_id n) (title n) (content n)
         (filter (λ c, targetNodeId c ≠ id) (choices n))
         (isAiGenerated n) (imageUrl n).

Definition deleteCascade (id : string) (m : NodeMap) : NodeMap :=
  pruneChoices id <$> delete id m.

Definition handleDeleteNode (confirmed : bool) (id : string) (st : State) : State :=
  let s := story (app st) in
  if decide (id = startNodeId s) then
    with_app (alert "The origin cannot be unmade.") st
  else if confirmed then
    handleSelectNode s (startNodeId s)
      (with_app (λ a, handleUpdateStory s
         (mkApp (<[nodes s := deleteCascade id (deref (heap a) (nodes s))]> (heap a))
                (story a) (alerts a))) st)
  else st.

Definition newChoice (now : N) (s : Story) : Choice :=
  mkChoice ("choice-" +:+ pretty now) "New Path" (startNodeId s).

Definition withChoices (cs : list Choice) (n : StoryNode) : StoryNode :=
  mkNode (node_id n) (title n) (content n) cs (isAiGenerated n) (imageUrl n).

Definition handleAddChoice (now : N) (st : State) : State :=
  match editNode st with
  | None => st
  | Some en =>
      setEditNode
        (Some (withChoices (choices en ++ [newChoice now (story (app st))]) en)) st
  end.

(** The remove button of choice [idx]:
    [editNode.choices.filter((_, i) => i !== idx)]. *)
Definition removeChoice (idx : nat) (st : State) : State :=
  match editNode st with
  | None => st
  | Some en => setEditNode (Some (withChoices (delete idx (choices en)) en)) st
  end.

(** The destination select of choice [idx] (lines 500-504):
    [newChoices[idx].targetNodeId = value] writes into the choice object at
    [idx], and the draft is replaced by a copy that holds the same choice
    objects.  A choice appended by [handleAddChoice] is a new object, held
    by the draft alone until the draft is saved, and this is the write for
    such a choice.  (A choice object that came with the selected scene is
    the document's own: there the write shows in the document at once.)
    Each select belongs to a choice of the draft, so [idx] is in range. *)
Definition setChoiceTarget (idx : nat) (value : string) (st : State) : State :=
  match editNode st with
  | None => st
  | Some en =>
      match choices en !! idx with
      | None => st
      | Some c =>
          setEditNode
            (Some (withChoices
                     (<[idx := mkChoice (choice_id c) (text c) value]> (choices en))
                     en)) st
      end
  end.

(** The user's actions on the editor and the event loop: a handler runs,
    then the component renders again; nothing runs once a render threw.
    (Typing into a choice's text or picking its destination, which write
    into the choice objects of the draft, are not among the actions.) *)
Inductive Event :=
  | SelectNode (id : string)
  | SaveNode
  | AddNode (now : N)
  | DeleteNode (confirmed : bool) (id : string)
  | AddChoice (now : N)
  | RemoveChoice (idx : nat).

Definition handle (ev : Event) (st : State) : State :=
  match ev with
  | SelectNode id => handleSelectNode (story (app st)) id st
  | SaveNode => handleSaveNode st
  | AddNode now => handleAddNode now st
  | DeleteNode c id => handleDeleteNode c id st
  | AddChoice now => handleAddChoice now st
  | RemoveChoice idx => removeChoice idx st
  end.

Definition dispatch (ev : Event) (st : State) : State :=
  if crashed st then st else render (handle ev st).

Definition run (evs : list Event) (st : State) : State :=
  foldl (λ st ev, dispatch ev st) st evs.

End Editor.

(** ** The player (StoryPlayer.tsx) *)

Module Player.

Record State := mkState {
  app : App;
  currentNodeId : string;
  history : list string;
  isGenerating : bool
}.

(** Mounting: [useState(story.startNodeId)], [useState([story.startNodeId])]. *)
Definition mount (a : App) : State :=
  mkState a (startNodeId (story a)) [startNodeId (story a)] false.

(** [story.nodes[currentNodeId]], as the node stored under that key.
    (For an id that is no key but a name [nodes] inherits, the read gives
    a function instead of [undefined] and the render throws on it rather
    than showing nothing; no choice of a document without dangling choices
    leads there.) *)
Definition currentNode (st : State) : option StoryNode :=
  doc_nodes (app st) !! currentNodeId st.

Definition handleChoice (targetId : string) (st : State) : State :=
  mkState (app st) targetId (history st ++ [targetId]) (isGenerating st).

Definition handleStepBack (st : State) : State :=
  if decide (List.length (history st) ≤ 1)%nat then st
  else
    let newHistory := removelast (history st) in
    mkState (app st) (default (currentNodeId st) (last newHistory))
            newHistory (isGenerating st).

(** The Restart button (line 383):
    [confirm("Restart?") && setCurrentNodeId(story.startNodeId)]. *)
Definition restart (confirmed : bool) (st : State) : State :=
  if confirmed then
    mkState (app st) (startNodeId (story (app st))) (history st) (isGenerating st)
  else st.

(** *** AI expansion ([handleAiGeneration], lines 152-201) *)

(** What [generateNextSteps] resolves to. *)
Record AiChoice := mkAiChoice {
  descr_text : string;
  nodeDescription : option string;
  targetExistingNodeId : option string
}.

Record AiResult := mkAiResult {
  nodeContent : option string;
  result_choices : list AiChoice
}.

(** What the handler's closure holds while the request is in flight: the
    [story] prop, [currentNodeId] and [currentNode] of the render in which
    the button was pressed. *)
Record Request := mkRequest {
  req_story : Story;
  req_currentNodeId : string;
  req_currentNode : StoryNode
}.

(** Before the [await].  The button exists only in a render where
    [currentNode] is defined; [history.map] throws inside the [try] when
    [story.nodes[id]] is [undefined] for a visited id: the id is no longer
    a key and is not an inherited name either. *)
Definition handleAiGeneration_request (hasApiKey : bool) (st : State)
  : State * option Request :=
  if hasApiKey then
    match currentNode st with
    | None => (st, None)
    | Some cn =>
        if forallb (λ id, bool_decide (is_Some (doc_nodes (app st) !! id))
                          || inherited id)
                   (history st)
        then (mkState (app st) (currentNodeId st) (history st) true,
              Some (mkRequest (story (app st)) (currentNodeId st) cn))
        else (mkState (alert "The mystical energies failed." (app st))
                      (currentNodeId st) (history st) false, None)
    end
  else (st, None).

Section Merge.

(** [clock k] is what the [k]-th evaluation of [Date.now()] after the
    [await] returns. *)
Variable clock : nat → N.

Definition linkId (k idx : nat) : string :=
  "ai-link-" +:+ pretty (clock k) +:+ "-" +:+ pretty idx.
Definition aiNodeId (k idx : nat) : string :=
  "ai-node-" +:+ pretty (clock k) +:+ "-" +:+ pretty idx.
Definition aiChoiceId (k idx : nat) : string :=
  "ai-choice-" +:+ pretty (clock k) +:+ "-" +:+ pretty idx.

Definition mintedNode (newId : string) (c : AiChoice) : StoryNode :=
  mkNode newId ("The Path of " +:+ descr_text c)
         (or_else (nodeDescription c) "The story unfolds...")
         [] (Some true) None.

(** The test of line 166:
    [c.targetExistingNodeId && newStory.nodes[c.targetExistingNodeId]].
    The second operand is a property read: it is truthy for a key of
    [nodes] (every stored value is an object) and also for a name that
    [nodes] inherits. *)
Definition converges (m : NodeMap) (c : AiChoice) : option string :=
  match targetExistingNodeId c with
  | Some t =>
      if bool_decide (t ≠ "") && (bool_decide (is_Some (m !! t)) || inherited t)
      then Some t
      else None
  | None => None
  end.

(** The callback of [result.choices.map] at index [idx], on the nodes
    object [m] with [k] clock readings made so far. *)
Definition expandChoice (idx : nat) (c : AiChoice) (st : NodeMap * nat)
  : Choice * (NodeMap * nat) :=
  let '(m, k) := st in
  match converges m c with
  | Some t => (mkChoice (linkId k idx) (descr_text c) t, (m, S k))
  | None =>
      let newId := aiNodeId k idx in
      (mkChoice (aiChoiceId (S k) idx) (descr_text c) newId,
       (<[newId := mintedNode newId c]> m, S (S k)))
  end.

Fixpoint mapChoices (idx : nat) (cs : list AiChoice) (st : NodeMap * nat)
  : list Choice * (NodeMap * nat) :=
  match cs with
  | [] => ([], st)
  | c :: cs' =>
      let '(ch, st1) := expandChoice idx c st in
      let '(chs, st2) := mapChoices (S idx) cs' st1 in
      (ch :: chs, st2)
  end.

(** The [nodes] object and the number of clock readings when the callback
    reaches index [i]. *)
Definition stateBefore (i : nat) (cs : list AiChoice) (m : NodeMap) : NodeMap * nat :=
  snd (mapChoices 0 (take i cs) (m, 0)).

(** The array [newChoices]. *)
Definition newChoices (cs : list AiChoice) (m : NodeMap) : list Choice :=
  fst (mapChoices 0 cs (m, 0)).

(** Lines 189-193: the node written back under [currentNodeId]. *)
Definition mergedNode (cn : StoryNode) (r : AiResult) (newChoices : list Choice)
  : StoryNode :=
  mkNode (node_id cn) (title cn) (or_else (nodeContent r) (content cn))
         newChoices (isAiGenerated cn) (imageUrl cn).

(** The effect of lines 163-193 on the [nodes] object. *)
Definition mergeNodes (req : Request) (r : AiResult) (m : NodeMap) : NodeMap :=
  let '(newChoices, (m1, _)) := mapChoices 0 (result_choices r) (m, 0) in
  <[req_currentNodeId req := mergedNode (req_currentNode req) r newChoices]> m1.

(** After the [await]: [None] is a rejected promise or a result without a
    [choices] array, which throws before anything is written. *)
Definition handleAiGeneration_complete (req : Request) (response : option AiResult)
  (a : App) : App :=
  match response with
  | None => alert "The mystical energies failed." a
  | Some r =>
      let s := req_story req in
      handleUpdateStory s
        (mkApp (<[nodes s := mergeNodes req r (deref (heap a) (nodes s))]> (heap a))
               (story a) (alerts a))
  end.

End Merge.

End Player.

(** ** Import (StoryEditor.tsx lines 231-258, App.tsx lines 65-99) *)

Module ImportFlow.

(** What [JSON.parse] yields for a file holding an object: any of the
    top-level fields may be absent.  The fields that are present have the
    types of types.ts: [nodes] maps ids to scene objects, and the
    [imageUrl] of a scene, when present, is a string. *)
Record Candidate := mkCandidate {
  cand_id : option string;
  cand_name : option string;
  cand_nodes : option (gmap string StoryNode);
  cand_startNodeId : option string;
  cand_imageStyle : option string
}.

#[global] Instance Candidate_eq_dec : EqDecision Candidate.
Proof. solve_decision. Defined.

(** The [story] cell seen as the JavaScript value it holds, the pending
    import of [App] and the alerts shown. *)
Record State := mkState {
  doc : Candidate;
  pendingImport : option Candidate;
  alerts : list string
}.

Definition failed_msg : string :=
  "Failed to integrate imported Saga. Ensure the file is a valid JSON story.".

(** The editor's [reader.onload]; [parsed = None] when [JSON.parse]
    throws.  The guard of line 242 throws ["Invalid Saga format."], which
    the [catch] reports. *)
Definition editor_handleImportFile (parsed : option Candidate) (st : State) : State :=
  match parsed with
  | None => mkState (doc st) (pendingImport st) (alerts st ++ [failed_msg])
  | Some c =>
      if negb (bool_decide (is_Some (cand_nodes c)))
         || negb (truthy (cand_startNodeId c))
         || negb (truthy (cand_name c))
      then mkState (doc st) (pendingImport st) (alerts st ++ [failed_msg])
      else mkState c (pendingImport st)
                   (alerts st ++ ["Saga integrated successfully."])
  end.

Section Welcome.

(** [resizeBase64Image(url, 800)] of geminiService.ts returns a promise
    that is resolved from [img.onload] and from nowhere else (there is no
    [onerror] and no [reject]).  [resizeBase64Image url] is the data URL it
    resolves with; [loads url] tells whether the browser decodes [url], so
    that [onload] fires at all. *)
Variable resizeBase64Image : string → string.
Variable loads : string → bool.

Definition normalizeImage (n : StoryNode) : StoryNode :=
  match imageUrl n with
  | Some url =>
      if bool_decide (url ≠ "") && String.prefix "data:image" url
      then mkNode (node_id n) (title n) (content n) (choices n)
                  (isAiGenerated n) (Some (resizeBase64Image url))
      else n
  | None => n
  end.

(** The URL that the loop of lines 76-81 awaits for a node, if any: the
    test of line 78. *)
Definition awaited (n : StoryNode) : option string :=
  match imageUrl n with
  | Some url =>
      if bool_decide (url ≠ "") && String.prefix "data:image" url then Some url
      else None
  | None => None
  end.

(** Every [await] of the loop settles. *)
Definition settles (m : NodeMap) : bool :=
  bool_decide (map_Forall (λ _ n, from_option loads true (awaited n) = true) m).

(** The welcome screen's [reader.onload] (App.tsx): [Object.keys] throws
    when [nodes] is absent; nothing else is inspected.  When an awaited
    promise never settles, the handler stays suspended inside the loop:
    [setPendingImport] is not reached, nothing is thrown, so nothing is
    reported, and the [finally] block does not run either. *)
Definition app_handleImportFile (parsed : option Candidate) (st : State) : State :=
  match parsed with
  | None => mkState (doc st) (pendingImport st) (alerts st ++ ["Corrupted saga file."])
  | Some c =>
      match cand_nodes c with
      | None => mkState (doc st) (pendingImport st)
                        (alerts st ++ ["Corrupted saga file."])
      | Some m =>
          if settles m then
            mkState (doc st)
                    (Some (mkCandidate (cand_id c) (cand_name c)
                                       (Some (normalizeImage <$> m))
                                       (cand_startNodeId c) (cand_imageStyle c)))
                    (alerts st)
          else st
      end
  end.

(** [finalizeImport]: either button of the "Saga Detected" dialog. *)
Definition finalizeImport (st : State) : State :=
  match pendingImport st with
  | None => st
  | Some c => mkState c None (alerts st)
  end.

End Welcome.

End ImportFlow.

(** ** Reachability and the documents of the scenarios *)

(** [reachable m start id]: [id] is reached from [start] by following
    choices of nodes of [m]. *)
Inductive reachable (m : NodeMap) (start : string) : string → Prop :=
  | reach_start : reachable m start start
  | reach_step (a : string) (n : StoryNode) (c : Choice) :
      reachable m start a → m !! a = Some n → c ∈ choices n →
      reachable m start (targetNodeId c).

Definition edge (src dst : string) : Choice :=
  mkChoice (src +:+ "->" +:+ dst) ("to " +:+ dst) dst.

Definition scene (id : string) (cs : list Choice) : StoryNode :=
  mkNode id id "..." cs None None.

(** A document whose [nodes] object lives at address 0. *)
Definition document (start : string) (ns : list StoryNode) : App :=
  mkApp {[ 0 := list_to_map ((λ n, (node_id n, n)) <$> ns) ]}
        (mkStory (Some "saga") "Saga" 0 start None) [].

(** A → B → C with the convergent edge A → C. *)
Definition abc_doc : App :=
  document "A" [scene "A" [edge "A" "B"; edge "A" "C"];
                scene "B" [edge "B" "C"];
                scene "C" []].

(** The player has walked from A to the leaf C and asks for an expansion
    there; the generator answers with one new scene and one link back. *)
Definition at_C : Player.State := Player.handleChoice "C" (Player.mount abc_doc).

Definition req_C : Player.Request :=
  Player.mkRequest (story abc_doc) "C" (scene "C" []).

Definition sample_result : Player.AiResult :=
  Player.mkAiResult (Some "The hall opens.")
    [Player.mkAiChoice "Enter" (Some "A vaulted room.") None;
     Player.mkAiChoice "Return" None (Some "A")].

(** Clock readings one millisecond apart. *)
Definition sample_clock (k : nat) : N := (1700000000000 + N.of_nat k)%N.

(** A document with a node stored under the empty id, and a result whose
    only choice names that id. *)
Definition empty_id_doc : App := document "A" [scene "A" []; scene "" []].

Definition req_A : Player.Request := Player.mkRequest (story abc_doc) "A" (scene "A" []).

Definition names_empty_id : Player.AiResult :=
  Player.mkAiResult None [Player.mkAiChoice "Back" None (Some "")].

(** A document that already holds the id the next expansion prints. *)
Definition clash_doc : App :=
  document "A" [scene "A" []; scene "ai-node-1700000000000-0" [edge "old" "A"]].

Definition one_new_scene : Player.AiResult :=
  Player.mkAiResult None [Player.mkAiChoice "Onward" (Some "A new place.") None].

(** A result whose only choice names an id that no node has and carries
    no description. *)
Definition names_ghost : Player.AiResult :=
  Player.mkAiResult None [Player.mkAiChoice "Leap" None (Some "ghost")].

(** A result whose only choice gives, as an existing id, a name that
    every plain object inherits. *)
Definition names_constructor : Player.AiResult :=
  Player.mkAiResult None [Player.mkAiChoice "Rebuild" None (Some "constructor")].

(** A second answer of the generator for the same node. *)
Definition second_result : Player.AiResult :=
  Player.mkAiResult None [Player.mkAiChoice "Wait" (Some "Nothing stirs.") None].

(** The readings of a merge that completes ten milliseconds later. *)
Definition later_clock (k : nat) : N := sample_clock (k + 10).

(** The session after walking A, B, C. *)
Definition walked_ABC : Player.State :=
  Player.handleChoice "C" (Player.handleChoice "B" (Player.mount abc_doc)).

(** A start node without choices, two scenes that point at each other, a
    scene that points at itself and a scene nothing points at. *)
Definition cluster_doc : App :=
  document "A" [scene "A" [];
                scene "X" [edge "X" "Y"];
                scene "Y" [edge "Y" "X"];
                scene "Z" [edge "Z" "Z"];
                scene "W" []].

(** A start node without choices and a scene W that nothing points at. *)
Definition aw_doc : App := document "A" [scene "A" []; scene "W" []].

(** A → B. *)
Definition ab_doc : App := document "A" [scene "A" [edge "A" "B"]; scene "B" []].

(** A file whose object has [name] and [nodes] and no [startNodeId]. *)
Definition no_start_candidate : ImportFlow.Candidate :=
  ImportFlow.mkCandidate None (Some "Lost Saga")
    (Some {[ "n1" := scene "n1" [] ]}) None None.

(** A file whose only scene embeds an image. *)
Definition image_candidate : ImportFlow.Candidate :=
  ImportFlow.mkCandidate None (Some "Gallery")
    (Some {[ "n1" := mkNode "n1" "n1" "..." [] None
                            (Some "data:image/png;base64,AAAA") ]})
    (Some "n1") None.

(** What one create does to the [nodes] object. *)
Definition insertNew (m : NodeMap) (t : N) : NodeMap :=
  <[Editor.newNodeId t := Editor.newNode t]> m.

(** * The rest of the editor, the player and the other components *)

(** ** Invariants of a document *)

(** Every choice of every stored node targets a key. *)
Definition no_dangling (m : NodeMap) : Prop :=
  map_Forall (λ _ n, Forall (λ c, is_Some (m !! targetNodeId c)) (choices n)) m.

(** Every node is stored under its own [id]. *)
Definition keys_match (m : NodeMap) : Prop :=
  map_Forall (λ k n, node_id n = k) m.

(** The draft of the editor only targets keys. *)
Definition draft_linked (st : Editor.State) : Prop :=
  ∀ en, Editor.editNode st = Some en →
    Forall (λ c, is_Some (doc_nodes (Editor.app st) !! targetNodeId c)) (choices en).

(** ** Playing (StoryPlayer.tsx, lines 135-150 and 354-365) *)

(** The buttons of a render: one per choice of the current node, and the
    back arrow. *)
Inductive Move :=
  | Choose (targetId : string)
  | StepBack.

Definition play (mv : Move) (st : Player.State) : Player.State :=
  match mv with
  | Choose targetId => Player.handleChoice targetId st
  | StepBack => Player.handleStepBack st
  end.

(** [offered st mv]: the render of [st] shows the button of [mv]. *)
Definition offered (st : Player.State) (mv : Move) : Prop :=
  match mv with
  | Choose targetId =>
      ∃ n c, Player.currentNode st = Some n ∧ c ∈ choices n
             ∧ targetNodeId c = targetId
  | StepBack => (1 < List.length (Player.history st))%nat
  end.

(** A walk: every move is one the render before it offers. *)
Fixpoint walk (mvs : list Move) (st : Player.State) : Prop :=
  match mvs with
  | [] => True
  | mv :: mvs' => offered st mv ∧ walk mvs' (play mv st)
  end.

Definition plays (mvs : list Move) (st : Player.State) : Player.State :=
  foldl (λ st mv, play mv st) st mvs.

(** The session is coherent: the history starts at the start node and
    ends at the current node. *)
Definition session_ok (st : Player.State) : Prop :=
  head (Player.history st) = Some (startNodeId (story (Player.app st)))
  ∧ last (Player.history st) = Some (Player.currentNodeId st).

(** What an editing session keeps: the start node exists, every stored
    choice targets a key, and so does every choice of the draft. *)
Definition editor_ok (st : Editor.State) : Prop :=
  start_valid (Editor.app st)
  ∧ no_dangling (doc_nodes (Editor.app st))
  ∧ draft_linked st.

(** The ids that the merge prints at index [j]. *)
Definition printed_at (j : nat) (s : string) : Prop :=
  ∃ t : N, s = "ai-link-" +:+ pretty t +:+ "-" +:+ pretty j
         ∨ s = "ai-choice-" +:+ pretty t +:+ "-" +:+ pretty j.

(** ** The lists of the editor (StoryEditor.tsx, lines 62-92) *)

Module EditorLists.

(** [s.includes(term)]. *)
Fixpoint includes (s term : string) : bool :=
  String.prefix term s
  || match s with
     | EmptyString => false
     | String _ s' => includes s' term
     end.

Section Search.

(** [String.prototype.toLowerCase] and [String.prototype.trim]. *)
Variable toLowerCase : string → string.
Variable trim : string → string.

(** [allNodes] is [Object.values(story.nodes)], in its order. *)
Definition filteredNodes (allNodes : list StoryNode) (sidebarSearch : string)
  : list StoryNode :=
  if bool_decide (trim sidebarSearch = "") then allNodes
  else
    let term := toLowerCase sidebarSearch in
    filter (λ node, includes (toLowerCase (title node)) term
                    || includes (toLowerCase (node_id node)) term
                    || includes (toLowerCase (content node)) term) allNodes.

Definition targets (id : string) (node : StoryNode) : Prop :=
  Exists (λ choice, targetNodeId choice = id) (choices node).

Definition inboundLinks (allNodes : list StoryNode) (selectedNodeId : option string)
    (inboundSearch : string) : list StoryNode :=
  match selectedNodeId with
  | None => []
  | Some sel =>
      if bool_decide (sel = "") then []
      else
        let links := filter (targets sel) allNodes in
        if bool_decide (trim inboundSearch = "") then links
        else
          let term := toLowerCase inboundSearch in
          filter (λ node, includes (toLowerCase (title node)) term
                          || includes (toLowerCase (node_id node)) term) links
  end.

End Search.

End EditorLists.

(** ** The graph view (StoryVisualizer.tsx, the [graphData] memo) *)

Module Visualizer.

Record GraphNode := mkGraphNode {
  gid : string;
  gname : string;
  isAi : bool;
  isStart : bool
}.

Record GraphLink := mkLink {
  source : string;
  target : string;
  label : string;
  indexInGroup : option nat;
  totalInGroup : option nat
}.

(** [values] is [Object.values(story.nodes)], in its order. *)
Definition graphNodes (values : list StoryNode) (start : string) : list GraphNode :=
  (λ n, mkGraphNode (node_id n)
          (if decide (title n = "") then "Untitled" else title n)
          (bool_decide (isAiGenerated n = Some true))
          (bool_decide (node_id n = start))) <$> values.

(** The [links] array as the two nested [forEach] fill it. *)
Definition rawLinks (values : list StoryNode) : list GraphLink :=
  values ≫= λ node,
    (λ choice, mkLink (node_id node) (targetNodeId choice) (text choice) None None)
      <$> choices node.

(** [[link.source, link.target].sort().join('-')]: the default sort puts
    the smaller string first.  Ids are byte strings here and are compared
    byte by byte; the sort of the source compares UTF-16 code units,
    which gives the same order except between an id with a character
    beyond U+FFFF and an id with one in U+E000..U+FFFF at the first
    difference.  Grouping needs only that both directions of a pair get
    one key, which holds for either order. *)
Definition groupKey (s t : string) : string :=
  if String.ltb t s then t +:+ "-" +:+ s else s +:+ "-" +:+ t.

Definition linkKey (l : GraphLink) : string := groupKey (source l) (target l).

(** [linkGroups]: an object whose keys all contain ["-"], so its entries
    are enumerated in insertion order; a link is named by its position in
    [links]. *)
Fixpoint group (gs : list (string * list nat)) (key : string) : list nat :=
  match gs with
  | [] => []
  | (k, g) :: gs' => if decide (k = key) then g else group gs' key
  end.

Fixpoint pushGroup (gs : list (string * list nat)) (key : string) (i : nat)
  : list (string * list nat) :=
  match gs with
  | [] => [(key, [i])]
  | (k, g) :: gs' =>
      if decide (k = key) then (k, (g ++ [i])%list) :: gs'
      else (k, g) :: pushGroup gs' key i
  end.

Definition setIndex (n : nat) (l : GraphLink) : GraphLink :=
  mkLink (source l) (target l) (label l) (Some n) (totalInGroup l).

Definition setTotal (n : nat) (l : GraphLink) : GraphLink :=
  mkLink (source l) (target l) (label l) (indexInGroup l) (Some n).

(** The first [links.forEach], from position [i] on. *)
Fixpoint indexLinks (i : nat) (links : list GraphLink) (gs : list (string * list nat))
  : list GraphLink * list (string * list nat) :=
  match links with
  | [] => ([], gs)
  | l :: rest =>
      let key := linkKey l in
      let l' := setIndex (List.length (group gs key)) l in
      let '(ls, gs') := indexLinks (S i) rest (pushGroup gs key i) in
      (l' :: ls, gs')
  end.

(** [Object.values(linkGroups).forEach(group => group.forEach(...))]. *)
Definition totalLinks (links : list GraphLink) (gs : list (string * list nat))
  : list GraphLink :=
  foldl (λ ls e, foldl (λ ls j, alter (setTotal (List.length e.2)) j ls) ls e.2)
        links gs.

Definition graphLinks (values : list StoryNode) : list GraphLink :=
  let '(ls, gs) := indexLinks 0 (rawLinks values) [] in
  totalLinks ls gs.

(** The positions, from [off] on, of the links of [l] with key [key]. *)
Fixpoint positions (key : string) (off : nat) (l : list GraphLink) : list nat :=
  match l with
  | [] => []
  | x :: l' =>
      (if decide (linkKey x = key) then [off] else []) ++ positions key (S off) l'
  end.

End Visualizer.

(** ** The WAV container of the narration (geminiService.ts, [pcmToWav]) *)

Module Wav.

(** A byte is an integer in [0, 256); a buffer is the list of its bytes.
    Lengths and the sample rate are integers. *)

(** The bytes of [ToUint32 v] and [ToUint16 v], least significant first. *)
Definition bytes32 (v : Z) : list Z :=
  let u := (v `mod` 4294967296)%Z in
  [(u `mod` 256)%Z; ((u / 256) `mod` 256)%Z; ((u / 65536) `mod` 256)%Z;
   ((u / 16777216) `mod` 256)%Z].

Definition bytes16 (v : Z) : list Z :=
  let u := (v `mod` 65536)%Z in
  [(u `mod` 256)%Z; ((u / 256) `mod` 256)%Z].

Definition write (off : nat) (bs : list Z) (buf : list Z) : list Z :=
  (take off buf ++ bs ++ drop (off + List.length bs) buf)%list.

(** [view.setUint32(off, v, littleEndian)] and [view.setUint16]. *)
Definition setUint32 (off : nat) (v : Z) (littleEndian : bool) (buf : list Z)
  : list Z :=
  write off (if littleEndian then bytes32 v else rev (bytes32 v)) buf.

Definition setUint16 (off : nat) (v : Z) (littleEndian : bool) (buf : list Z)
  : list Z :=
  write off (if littleEndian then bytes16 v else rev (bytes16 v)) buf.

(** The 44 bytes that [pcmToWav] fills, for [pcmData.length = len]. *)
Definition header (len sampleRate : Z) : list Z :=
  let view := replicate 44 0%Z in
  let view := setUint32 0 0x52494646 false view in
  let view := setUint32 4 (36 + len) true view in
  let view := setUint32 8 0x57415645 false view in
  let view := setUint32 12 0x666d7420 false view in
  let view := setUint32 16 16 true view in
  let view := setUint16 20 1 true view in
  let view := setUint16 22 1 true view in
  let view := setUint32 24 sampleRate true view in
  let view := setUint32 28 (sampleRate * 2) true view in
  let view := setUint16 32 2 true view in
  let view := setUint16 34 16 true view in
  let view := setUint32 36 0x64617461 false view in
  let view := setUint32 40 len true view in
  view.

(** [new Blob([header, pcmData])]. *)
Definition pcmToWav (pcmData : list Z) (sampleRate : Z) : list Z :=
  (header (Z.of_nat (List.length pcmData)) sampleRate ++ pcmData)%list.

(** Reading a field back: [view.getUint32(off, true)] and
    [view.getUint16(off, true)] of a decoder. *)
Definition decodeLE (bs : list Z) : Z := foldr (λ b acc, (b + 256 * acc)%Z) 0%Z bs.

Definition getUintLE (width off : nat) (buf : list Z) : Z :=
  decodeLE (take width (drop off buf)).

End Wav.

(** * Properties *)

(** ** The heap and the shared state *)

Lemma deref_insert_eq (h : Heap) (r : nat) (m : NodeMap) :
  deref (<[r := m]> h) r = m.
Proof. unfold deref. by rewrite lookup_insert_eq. Qed.

Lemma deref_insert_ne (h : Heap) (r r' : nat) (m : NodeMap) :
  r ≠ r' → deref (<[r := m]> h) r' = deref h r'.
Proof. intros Hne. unfold deref. by rewrite lookup_insert_ne. Qed.

Lemma doc_nodes_assignNode (a : App) (k : string) (v : StoryNode) :
  doc_nodes (handleUpdateStory (story a) (assignNode (story a) k v a))
  = <[k := v]> (doc_nodes a).
Proof. unfold doc_nodes; simpl. by rewrite deref_insert_eq. Qed.

(** ** Deleting a node *)

Lemma deleteCascade_lookup (id k : string) (m : NodeMap) :
  Editor.deleteCascade id m !! k
  = if decide (k = id) then None else Editor.pruneChoices id <$> m !! k.
Proof.
  unfold Editor.deleteCascade. rewrite lookup_fmap.
  destruct (decide (k = id)) as [->|Hne].
  - by rewrite lookup_delete_eq.
  - by rewrite lookup_delete_ne.
Qed.

Lemma handleDeleteNode_nodes (st : Editor.State) (id : string) :
  id ≠ startNodeId (story (Editor.app st)) →
  doc_nodes (Editor.app (Editor.handleDeleteNode true id st))
  = Editor.deleteCascade id (doc_nodes (Editor.app st)).
Proof.
  intros Hne. unfold Editor.handleDeleteNode.
  destruct (decide _) as [|_]; [done|].
  unfold Editor.handleSelectNode; simpl.
  case_match; unfold doc_nodes; simpl; by rewrite deref_insert_eq.
Qed.

(** C3. Deleting a non-start node [X] that is a key of [nodes] removes
    [X]; every other node stays under its key with its fields unchanged
    except that its choice list is filtered to the choices whose target is
    not [X] (the others are kept, in order); no key is added.  In the
    document A → B → C with A → C, deleting B leaves A with exactly one
    choice, to C. *)
Theorem delete_node_cascades (st : Editor.State) (X : string) (nX : StoryNode) :
  X ≠ startNodeId (story (Editor.app st)) →
  doc_nodes (Editor.app st) !! X = Some nX →
  let before := doc_nodes (Editor.app st) in
  let after := doc_nodes (Editor.app (Editor.handleDeleteNode true X st)) in
  after !! X = None
  ∧ (∀ k n, k ≠ X → before !! k = Some n →
       after !! k = Some (mkNode (node_id n) (title n) (content n)
                            (filter (λ c, targetNodeId c ≠ X) (choices n))
                            (isAiGenerated n) (imageUrl n)))
  ∧ (∀ k, before !! k = None → after !! k = None)
  ∧ (∀ k n c, after !! k = Some n → c ∈ choices n → targetNodeId c ≠ X)
  ∧ choices <$> (doc_nodes (Editor.app
        (Editor.run [Editor.SelectNode "B"; Editor.DeleteNode true "B"]
                    (Editor.mount abc_doc))) !! "A")
    = Some [edge "A" "C"].
Proof.
  intros Hstart HX before after. subst before after.
  rewrite handleDeleteNode_nodes by done.
  split_and!.
  - rewrite deleteCascade_lookup. by rewrite decide_True.
  - intros k n Hk Hn. rewrite deleteCascade_lookup, decide_False by done.
    by rewrite Hn.
  - intros k Hk. rewrite deleteCascade_lookup. case_decide; [done|].
    by rewrite Hk.
  - intros k n c. rewrite deleteCascade_lookup. case_decide; [done|].
    destruct (doc_nodes (Editor.app st) !! k) as [n0|]; [|done].
    intros [= <-]; simpl. by intros [? _]%list_elem_of_filter.
  - by vm_compute.
Qed.

Lemma delete_node_cascades_witness :
  doc_nodes (Editor.app (Editor.handleDeleteNode true "B" (Editor.mount abc_doc)))
    !! "B" = None.
Proof.
  refine (proj1 (delete_node_cascades (Editor.mount abc_doc) "B"
                   (scene "B" [edge "B" "C"]) _ _)).
  - by vm_compute.
  - by vm_compute.
Defined.

(** ** Start-node permanence *)

Lemma app_render (st : Editor.State) : Editor.app (Editor.render st) = Editor.app st.
Proof. unfold Editor.render. by case_decide. Qed.

Lemma app_handleSelectNode (s : Story) (id : string) (st : Editor.State) :
  Editor.app (Editor.handleSelectNode s id st) = Editor.app st.
Proof. unfold Editor.handleSelectNode. by case_match. Qed.

Lemma handleSaveNode_nodes (st : Editor.State) (en : StoryNode) :
  Editor.editNode st = Some en →
  doc_nodes (Editor.app (Editor.handleSaveNode st))
  = <[node_id en := en]> (doc_nodes (Editor.app st)).
Proof.
  intros Hen. unfold Editor.handleSaveNode. rewrite Hen.
  unfold doc_nodes; simpl. by rewrite deref_insert_eq.
Qed.

Lemma handleAddNode_nodes (now : N) (st : Editor.State) :
  doc_nodes (Editor.app (Editor.handleAddNode now st))
  = <[Editor.newNodeId now := Editor.newNode now]> (doc_nodes (Editor.app st)).
Proof.
  unfold Editor.handleAddNode. rewrite app_handleSelectNode.
  unfold doc_nodes; simpl. by rewrite deref_insert_eq.
Qed.

Lemma story_handle (ev : Editor.Event) (st : Editor.State) :
  story (Editor.app (Editor.handle ev st)) = story (Editor.app st).
Proof.
  destruct ev; simpl.
  - by rewrite app_handleSelectNode.
  - unfold Editor.handleSaveNode. by case_match.
  - unfold Editor.handleAddNode. by rewrite app_handleSelectNode.
  - unfold Editor.handleDeleteNode. case_decide; [done|].
    destruct confirmed; [|done]. by rewrite app_handleSelectNode.
  - unfold Editor.handleAddChoice. by case_match.
  - unfold Editor.removeChoice. by case_match.
Qed.

Lemma handle_start_valid (ev : Editor.Event) (st : Editor.State) :
  start_valid (Editor.app st) → start_valid (Editor.app (Editor.handle ev st)).
Proof.
  unfold start_valid. rewrite story_handle. intros Hv.
  destruct ev; simpl.
  - by rewrite app_handleSelectNode.
  - destruct (Editor.editNode st) as [en|] eqn:Hen.
    + rewrite (handleSaveNode_nodes st en Hen).
      rewrite lookup_insert. case_decide; [by eexists|done].
    + unfold Editor.handleSaveNode. by rewrite Hen.
  - rewrite handleAddNode_nodes.
    rewrite lookup_insert. case_decide; [by eexists|done].
  - destruct (decide (id = startNodeId (story (Editor.app st)))) as [->|Hne].
    + unfold Editor.handleDeleteNode. by rewrite decide_True.
    + destruct confirmed.
      * rewrite handleDeleteNode_nodes by done.
        rewrite deleteCascade_lookup, decide_False by done.
        destruct Hv as [n ->]. by eexists.
      * unfold Editor.handleDeleteNode. by rewrite decide_False.
  - unfold Editor.handleAddChoice. by case_match.
  - unfold Editor.removeChoice. by case_match.
Qed.

Lemma dispatch_start_valid (ev : Editor.Event) (st : Editor.State) :
  start_valid (Editor.app st) → start_valid (Editor.app (Editor.dispatch ev st)).
Proof.
  intros Hv. unfold Editor.dispatch. destruct (Editor.crashed st); [done|].
  rewrite app_render. by apply handle_start_valid.
Qed.

(** ** Printed identifiers *)

Lemma pretty_N_go_no_dash (x : N) (s : string) :
  no_dash s → no_dash (pretty_N_go x s).
Proof.
  revert s. induction (N.lt_wf_0 x) as [x _ IH]; intros s Hs.
  assert (x = 0 ∨ 0 < x)%N as [->|Hpos] by lia.
  - by rewrite pretty_N_go_0.
  - rewrite pretty_N_go_step by done. apply IH.
    + by apply N.div_lt.
    + split; [|done]. unfold pretty_N_char. by repeat case_match.
Qed.

Lemma pretty_N_no_dash (x : N) : no_dash (pretty x).
Proof.
  unfold pretty, pretty_N. case_decide.
  - by split.
  - by apply pretty_N_go_no_dash.
Qed.

Lemma split_at_dash (s1 s2 r1 r2 : string) :
  no_dash s1 → no_dash s2 →
  s1 +:+ String "-" r1 = s2 +:+ String "-" r2 → s1 = s2 ∧ r1 = r2.
Proof.
  revert s2. induction s1 as [|a s1 IH]; intros [|b s2]; simpl.
  - by intros _ _ [= ->].
  - intros _ [Hb _] [= <- _]. done.
  - intros [Ha _] _ [= -> _]. done.
  - intros [_ H1] [_ H2] [= -> Heq]. destruct (IH s2 H1 H2 Heq) as [-> ->]. done.
Qed.

Lemma newNodeId_inj (t1 t2 : N) :
  Editor.newNodeId t1 = Editor.newNodeId t2 → t1 = t2.
Proof. unfold Editor.newNodeId. intros [= Heq]. by apply (inj pretty). Qed.

Lemma aiNodeId_inj (clock : nat → N) (k1 k2 i j : nat) :
  Player.aiNodeId clock k1 i = Player.aiNodeId clock k2 j → i = j.
Proof.
  unfold Player.aiNodeId. intros [= Heq].
  apply split_at_dash in Heq as [_ Heq]; [|apply pretty_N_no_dash..].
  by apply (inj pretty) in Heq.
Qed.

(** ** The expansion merge, choice by choice *)

Section MergeFacts.

Variable clock : nat → N.

Lemma mapChoices_cons (c : Player.AiChoice) (cs : list Player.AiChoice) (idx : nat)
    (st : NodeMap * nat) :
  Player.mapChoices clock idx (c :: cs) st
  = let r1 := Player.expandChoice clock idx c st in
    let r2 := Player.mapChoices clock (S idx) cs r1.2 in
    (r1.1 :: r2.1, r2.2).
Proof.
  simpl. destruct (Player.expandChoice clock idx c st) as [ch st1].
  cbn [fst snd]. by destruct (Player.mapChoices clock (S idx) cs st1).
Qed.

Lemma converges_Some (m : NodeMap) (c : Player.AiChoice) (t : string) :
  Player.converges m c = Some t
  ↔ Player.targetExistingNodeId c = Some t ∧ t ≠ ""
    ∧ (is_Some (m !! t) ∨ inherited t = true).
Proof.
  unfold Player.converges.
  destruct (Player.targetExistingNodeId c) as [t'|]; [|split; [done|by intros [? _]]].
  destruct (inherited t') eqn:Hinh; repeat case_bool_decide; simpl; split.
  all: try (intros [= <-]; by auto).
  all: try done.
  all: intros ([= <-] & ? & [?|?]); congruence.
Qed.

Lemma converges_None (m : NodeMap) (c : Player.AiChoice) :
  Player.converges m c = None
  ↔ ∀ t, Player.targetExistingNodeId c = Some t →
         t = "" ∨ (m !! t = None ∧ inherited t = false).
Proof.
  split.
  - intros Hn t Ht. destruct (decide (t = "")) as [|Hne]; [by left|right].
    destruct (m !! t) as [n|] eqn:Hm.
    + assert (Player.converges m c = Some t) as Hs.
      { apply converges_Some. split_and!; [done..|]. left. rewrite Hm. by eexists. }
      congruence.
    + destruct (inherited t) eqn:Hinh; [|done].
      assert (Player.converges m c = Some t) as Hs
        by (apply converges_Some; auto).
      congruence.
  - intros Hall. destruct (Player.converges m c) as [t|] eqn:Hc; [|done].
    apply converges_Some in Hc as (Ht & Hne & Hin).
    destruct (Hall t Ht) as [?|[Hm Hinh]]; [done|].
    destruct Hin as [[n Hn]|?]; congruence.
Qed.

Lemma expandChoice_keys (idx : nat) (c : Player.AiChoice) (m : NodeMap) (k : nat)
    (x : string) :
  is_Some (m !! x) →
  is_Some ((Player.expandChoice clock idx c (m, k)).2.1 !! x).
Proof.
  intros Hx. unfold Player.expandChoice. destruct (Player.converges m c); simpl.
  - done.
  - rewrite lookup_insert. case_decide; [by eexists|done].
Qed.

Lemma mapChoices_keys (cs : list Player.AiChoice) (idx : nat) (m : NodeMap)
    (k : nat) (x : string) :
  is_Some (m !! x) →
  is_Some ((Player.mapChoices clock idx cs (m, k)).2.1 !! x).
Proof.
  revert idx m k. induction cs as [|c cs IH]; intros idx m k Hx; [done|].
  rewrite mapChoices_cons; cbn zeta.
  pose proof (expandChoice_keys idx c m k x Hx) as H1.
  destruct (Player.expandChoice clock idx c (m, k)) as [ch [m1 k1]].
  apply (IH (S idx) m1 k1 H1).
Qed.

Lemma text_expandChoice (idx : nat) (c : Player.AiChoice) (st : NodeMap * nat) :
  text (Player.expandChoice clock idx c st).1 = Player.descr_text c.
Proof.
  destruct st as [m k]. unfold Player.expandChoice.
  by destruct (Player.converges m c).
Qed.

Lemma mapChoices_texts (cs : list Player.AiChoice) (idx : nat) (st : NodeMap * nat) :
  text <$> (Player.mapChoices clock idx cs st).1 = Player.descr_text <$> cs.
Proof.
  revert idx st. induction cs as [|c cs IH]; intros idx st; [done|].
  rewrite mapChoices_cons; cbn zeta; cbn [fst]. rewrite fmap_cons.
  by rewrite text_expandChoice, IH.
Qed.

Lemma mapChoices_length (cs : list Player.AiChoice) (idx : nat) (st : NodeMap * nat) :
  List.length (Player.mapChoices clock idx cs st).1 = List.length cs.
Proof.
  rewrite <-(length_fmap text), mapChoices_texts. apply length_fmap.
Qed.

(** [map] over a concatenation: the second part starts at its own index,
    on the state the first part left. *)
Lemma mapChoices_app (l1 l2 : list Player.AiChoice) (idx : nat) (st : NodeMap * nat) :
  Player.mapChoices clock idx (l1 ++ l2) st
  = let r1 := Player.mapChoices clock idx l1 st in
    let r2 := Player.mapChoices clock (idx + List.length l1) l2 r1.2 in
    ((r1.1 ++ r2.1)%list, r2.2).
Proof.
  revert idx st. induction l1 as [|c l1 IH]; intros idx st.
  - cbn [app List.length Player.mapChoices fst snd]. rewrite Nat.add_0_r.
    by destruct (Player.mapChoices clock idx l2 st).
  - rewrite <-app_comm_cons, !mapChoices_cons; cbn zeta. rewrite IH; cbn zeta.
    cbn [fst snd List.length].
    by replace (S idx + List.length l1)%nat with (idx + S (List.length l1))%nat by lia.
Qed.

(** A key that no later index can mint keeps its node. *)
Lemma mapChoices_other (cs : list Player.AiChoice) (idx : nat) (m : NodeMap)
    (k : nat) (x : string) :
  (∀ k' j, (idx ≤ j)%nat → x ≠ Player.aiNodeId clock k' j) →
  (Player.mapChoices clock idx cs (m, k)).2.1 !! x = m !! x.
Proof.
  revert idx m k. induction cs as [|c cs IH]; intros idx m k Hx; [done|].
  rewrite mapChoices_cons; cbn zeta.
  assert ((Player.expandChoice clock idx c (m, k)).2.1 !! x = m !! x) as H1.
  { unfold Player.expandChoice. destruct (Player.converges m c); simpl; [done|].
    rewrite lookup_insert_ne; [done|]. intros Heq. by apply (Hx k idx). }
  destruct (Player.expandChoice clock idx c (m, k)) as [ch [m1 k1]].
  assert (∀ k' j, (S idx ≤ j)%nat → x ≠ Player.aiNodeId clock k' j) as Hx'
    by (intros; apply Hx; lia).
  cbn [fst snd] in *. by rewrite (IH (S idx) m1 k1 Hx').
Qed.

Lemma mergeNodes_keys (req : Player.Request) (r : Player.AiResult) (m : NodeMap)
    (x : string) :
  is_Some (m !! x) → is_Some (Player.mergeNodes clock req r m !! x).
Proof.
  intros Hx. unfold Player.mergeNodes.
  pose proof (mapChoices_keys (Player.result_choices r) 0 m 0 x Hx) as H1.
  destruct (Player.mapChoices clock 0 (Player.result_choices r) (m, 0))
    as [chs [m1 k1]].
  rewrite lookup_insert. case_decide; [by eexists|done].
Qed.

Lemma mergeNodes_current (req : Player.Request) (r : Player.AiResult) (m : NodeMap) :
  Player.mergeNodes clock req r m !! Player.req_currentNodeId req
  = Some (Player.mergedNode (Player.req_currentNode req) r
            (Player.newChoices clock (Player.result_choices r) m)).
Proof.
  unfold Player.mergeNodes, Player.newChoices.
  destruct (Player.mapChoices clock 0 (Player.result_choices r) (m, 0))
    as [chs [m1 k1]].
  by rewrite lookup_insert_eq.
Qed.

Lemma complete_nodes (req : Player.Request) (r : Player.AiResult) (a : App) :
  doc_nodes (Player.handleAiGeneration_complete clock req (Some r) a)
  = Player.mergeNodes clock req r (deref (heap a) (nodes (Player.req_story req))).
Proof. unfold doc_nodes; simpl. by rewrite deref_insert_eq. Qed.

End MergeFacts.

Section MergeAt.

Variable clock : nat → N.

(** The run of [map] split at index [i]. *)
Lemma mapChoices_at (cs : list Player.AiChoice) (i : nat) (c : Player.AiChoice)
    (st : NodeMap * nat) :
  cs !! i = Some c →
  let sb := Player.mapChoices clock 0 (take i cs) st in
  let e := Player.expandChoice clock i c sb.2 in
  let rest := Player.mapChoices clock (S i) (drop (S i) cs) e.2 in
  Player.mapChoices clock 0 cs st = ((sb.1 ++ e.1 :: rest.1)%list, rest.2)
  ∧ Player.mapChoices clock 0 (take (S i) cs) st = ((sb.1 ++ [e.1])%list, e.2)
  ∧ List.length sb.1 = i.
Proof.
  intros Hi sb e rest.
  assert (List.length (take i cs) = i) as Hlen.
  { rewrite length_take. apply lookup_lt_Some in Hi. lia. }
  split_and!.
  - rewrite <-(take_drop_middle cs i c Hi) at 1.
    rewrite mapChoices_app; cbn zeta. rewrite Hlen, Nat.add_0_l.
    by rewrite mapChoices_cons.
  - rewrite (take_S_r cs i c Hi).
    rewrite mapChoices_app; cbn zeta. rewrite Hlen, Nat.add_0_l.
    by rewrite mapChoices_cons.
  - unfold sb. by rewrite mapChoices_length.
Qed.

(** Every choice that the merge builds targets a key of the resulting
    [nodes] object, or a name that object inherits and that the result
    gave as an existing id. *)
Lemma mapChoices_targets (cs : list Player.AiChoice) (idx : nat) (m : NodeMap)
    (k : nat) (ch : Choice) :
  ch ∈ (Player.mapChoices clock idx cs (m, k)).1 →
  is_Some ((Player.mapChoices clock idx cs (m, k)).2.1 !! targetNodeId ch)
  ∨ (inherited (targetNodeId ch) = true
     ∧ ∃ c, c ∈ cs ∧ Player.targetExistingNodeId c = Some (targetNodeId ch)).
Proof.
  revert idx m k. induction cs as [|c cs IH]; intros idx m k.
  - by intros ?%elem_of_nil.
  - rewrite mapChoices_cons; cbn zeta; cbn [fst snd].
    assert (is_Some ((Player.expandChoice clock idx c (m, k)).2.1
                       !! targetNodeId (Player.expandChoice clock idx c (m, k)).1)
            ∨ (inherited (targetNodeId (Player.expandChoice clock idx c (m, k)).1)
               = true
               ∧ Player.targetExistingNodeId c
                 = Some (targetNodeId (Player.expandChoice clock idx c (m, k)).1)))
      as Hhd.
    { unfold Player.expandChoice.
      destruct (Player.converges m c) as [t|] eqn:Hc; simpl.
      - apply converges_Some in Hc as (? & _ & [?|?]); auto.
      - left. rewrite lookup_insert_eq. by eexists. }
    destruct (Player.expandChoice clock idx c (m, k)) as [ch0 [m1 k1]].
    cbn [fst snd] in *.
    intros [->|Hin]%elem_of_cons.
    + destruct Hhd as [Hkey|[Hinh Hnamed]].
      * left. by apply mapChoices_keys.
      * right. split; [done|]. exists c. split; [by left|done].
    + destruct (IH (S idx) m1 k1 Hin) as [?|[Hinh (c' & Hc' & Hnamed)]]; [by left|].
      right. split; [done|]. exists c'. split; [by right|done].
Qed.

(** A node minted at index [i] is a key of the [nodes] object when [map]
    is done. *)
Lemma mapChoices_minted (cs : list Player.AiChoice) (i : nat) (c : Player.AiChoice)
    (m : NodeMap) :
  cs !! i = Some c →
  Player.converges (Player.stateBefore clock i cs m).1 c = None →
  is_Some ((Player.mapChoices clock 0 cs (m, 0)).2.1
             !! Player.aiNodeId clock (Player.stateBefore clock i cs m).2 i).
Proof.
  intros Hi Hc. destruct (mapChoices_at cs i c (m, 0) Hi) as (Hall & _ & _).
  cbn zeta in Hall. rewrite Hall. cbn [snd]. unfold Player.stateBefore in *.
  destruct (Player.mapChoices clock 0 (take i cs) (m, 0)) as [chs [mi ki]].
  cbn [fst snd] in *. unfold Player.expandChoice. rewrite Hc. cbn [snd].
  apply mapChoices_keys. rewrite lookup_insert_eq. by eexists.
Qed.

(** The names printed for minted nodes are not inherited names. *)
Lemma aiNodeId_not_inherited (k idx : nat) :
  inherited (Player.aiNodeId clock k idx) = false.
Proof.
  apply bool_decide_eq_false. unfold Object_prototype, Player.aiNodeId.
  rewrite !elem_of_cons, elem_of_nil. intros H.
  repeat (destruct H as [H|H]; [discriminate H|]). done.
Qed.

End MergeAt.

(** ** The expansion merge against a changed document *)




(** ** Convergence and divergence of the expansion *)

(** C5, refuted at three inputs.  A choice naming the empty id, under
    which a node is stored, is not linked to it: a new node is minted.  A
    choice without a match whose printed id is already a key adds no node:
    the node stored there is overwritten.  A choice without a match and
    without a description mints a node whose content is the default
    text. *)
Lemma expansion_claim_fails :
  (let m := doc_nodes empty_id_doc in
   is_Some (m !! "")
   ∧ Player.newChoices sample_clock (Player.result_choices names_empty_id) m
     = [mkChoice "ai-choice-1700000000001-0" "Back" "ai-node-1700000000000-0"]
   ∧ size (Player.mergeNodes sample_clock req_A names_empty_id m) = S (size m))
  ∧ (let m := doc_nodes clash_doc in
     let m' := Player.mergeNodes sample_clock req_A one_new_scene m in
     m !! "ai-node-1700000000000-0"
       = Some (scene "ai-node-1700000000000-0" [edge "old" "A"])
     ∧ m' !! "ai-node-1700000000000-0"
       = Some (mkNode "ai-node-1700000000000-0" "The Path of Onward"
                      "A new place." [] (Some true) None)
     ∧ size m' = size m)
  ∧ (let m := doc_nodes abc_doc in
     let m' := Player.mergeNodes sample_clock req_C names_ghost m in
     m !! "ghost" = None
     ∧ m' !! "ai-node-1700000000000-0"
       = Some (mkNode "ai-node-1700000000000-0" "The Path of Leap"
                      "The story unfolds..." [] (Some true) None)).
Proof.
  split_and!; try (by vm_compute).
  vm_compute. split_and!; [by eexists|done..].
Qed.

(** C5, as the code has it.  Let [mi] be the [nodes] object when the
    callback reaches the choice [c] at index [i], after [ki] clock
    readings.  If [c] names a non-empty id that is a key of [mi], the
    [i]-th built choice links to it and [nodes] is not touched.  If [c]
    names no id, the empty id, or an id that is neither a key of [mi] nor
    a name [mi] inherits, the callback stores the minted node
    (AI-generated, no choices, titled after the choice text, content from
    the descriptor or the default) under the printed id and the [i]-th
    built choice targets it; when that id is not yet a key this is exactly
    one more node, and the merged document holds it.  (An id that is no
    key but an inherited name is the one case left: the statement says
    nothing about it.) *)
Theorem expansion_choice_by_choice (clock : nat → N) (req : Player.Request)
    (r : Player.AiResult) (m : NodeMap) (i : nat) (c : Player.AiChoice) :
  is_Some (m !! Player.req_currentNodeId req) →
  Player.result_choices r !! i = Some c →
  let cs := Player.result_choices r in
  let mi := (Player.stateBefore clock i cs m).1 in
  let ki := (Player.stateBefore clock i cs m).2 in
  let mi' := (Player.stateBefore clock (S i) cs m).1 in
  (∀ t, Player.targetExistingNodeId c = Some t → t ≠ "" → is_Some (mi !! t) →
     Player.newChoices clock cs m !! i
       = Some (mkChoice (Player.linkId clock ki i) (Player.descr_text c) t)
     ∧ mi' = mi)
  ∧ ((∀ t, Player.targetExistingNodeId c = Some t →
          t = "" ∨ (mi !! t = None ∧ inherited t = false)) →
     let newId := Player.aiNodeId clock ki i in
     let minted :=
       mkNode newId ("The Path of " +:+ Player.descr_text c)
              (or_else (Player.nodeDescription c) "The story unfolds...")
              [] (Some true) None in
     Player.newChoices clock cs m !! i
       = Some (mkChoice (Player.aiChoiceId clock (S ki) i) (Player.descr_text c) newId)
     ∧ mi' = <[newId := minted]> mi
     ∧ (mi !! newId = None →
        size mi' = S (size mi)
        ∧ Player.mergeNodes clock req r m !! newId = Some minted)).
Proof.
  intros Hcur Hi cs mi ki mi'.
  destruct (mapChoices_at clock cs i c (m, 0) Hi) as (Hall & Htake & Hlen).
  cbn zeta in Hall, Htake.
  assert (Player.stateBefore clock i cs m = (mi, ki)) as Hsb
    by (subst mi ki; by destruct (Player.stateBefore clock i cs m)).
  unfold Player.stateBefore in Hsb. rewrite Hsb in Hall, Htake.
  assert (mi' = (Player.expandChoice clock i c (mi, ki)).2.1) as Hmi'.
  { subst mi'. unfold Player.stateBefore. by rewrite Htake. }
  assert (Player.newChoices clock cs m !! i
          = Some (Player.expandChoice clock i c (mi, ki)).1) as Hch.
  { unfold Player.newChoices. rewrite Hall; cbn [fst].
    rewrite lookup_app_r by lia. by rewrite Hlen, Nat.sub_diag. }
  clearbody mi' mi ki. split.
  - intros t Ht Hne Hin.
    assert (Player.converges mi c = Some t) as Hc
      by (apply converges_Some; auto).
    rewrite Hch, Hmi'. unfold Player.expandChoice. by rewrite Hc.
  - intros Hno newId minted.
    assert (Player.converges mi c = None) as Hc by (by apply converges_None).
    assert (Player.expandChoice clock i c (mi, ki)
            = (mkChoice (Player.aiChoiceId clock (S ki) i) (Player.descr_text c) newId,
               (<[newId := minted]> mi, S (S ki)))) as He
      by (unfold Player.expandChoice; by rewrite Hc).
    rewrite He in Hch, Hmi', Hall. cbn [fst snd] in Hch, Hmi', Hall.
    split_and!; [done..|]. intros Hfresh. split.
    + rewrite Hmi'. by apply map_size_insert_None.
    + unfold Player.mergeNodes. fold cs. rewrite Hall.
      assert (newId ≠ Player.req_currentNodeId req) as Hne.
      { intros Heq. rewrite <-Heq in Hcur.
        pose proof (mapChoices_keys clock (take i cs) 0 m 0 newId Hcur) as Hk.
        rewrite Hsb in Hk. cbn [fst snd] in Hk. rewrite Hfresh in Hk.
        by destruct Hk. }
      destruct (Player.mapChoices clock (S i) (drop (S i) cs)
                  (<[newId := minted]> mi, S (S ki))) as [chs [mf kf]] eqn:Hrest.
      cbn [fst snd]. rewrite lookup_insert_ne by done.
      pose proof (mapChoices_other clock (drop (S i) cs) (S i)
                    (<[newId := minted]> mi) (S (S ki)) newId) as Hoth.
      rewrite Hrest in Hoth. cbn [fst snd] in Hoth.
      rewrite Hoth; [by rewrite lookup_insert_eq|].
      intros k' j Hj Heq. apply aiNodeId_inj in Heq. lia.
Qed.

Lemma expansion_choice_by_choice_witness :
  is_Some (doc_nodes abc_doc !! Player.req_currentNodeId req_C)
  ∧ Player.result_choices sample_result !! 1%nat
    = Some (Player.mkAiChoice "Return" None (Some "A"))
  ∧ Player.newChoices sample_clock (Player.result_choices sample_result)
      (doc_nodes abc_doc) !! 1%nat
    = Some (mkChoice "ai-link-1700000000002-1" "Return" "A")
  ∧ Player.result_choices names_ghost !! 0%nat
    = Some (Player.mkAiChoice "Leap" None (Some "ghost"))
  ∧ Player.newChoices sample_clock (Player.result_choices names_ghost)
      (doc_nodes abc_doc) !! 0%nat
    = Some (mkChoice "ai-choice-1700000000001-0" "Leap" "ai-node-1700000000000-0").
Proof.
  assert (is_Some (doc_nodes abc_doc !! Player.req_currentNodeId req_C)) as Hcur
    by (vm_compute; by eexists).
  split_and!.
  - done.
  - by vm_compute.
  - refine (proj1 (proj1 (expansion_choice_by_choice sample_clock req_C sample_result
                     (doc_nodes abc_doc) 1 (Player.mkAiChoice "Return" None (Some "A"))
                     Hcur _) "A" _ _ _)).
    + by vm_compute.
    + by vm_compute.
    + by vm_compute.
    + vm_compute. by eexists.
  - by vm_compute.
  - refine (proj1 (proj2 (expansion_choice_by_choice sample_clock req_C names_ghost
                     (doc_nodes abc_doc) 0 (Player.mkAiChoice "Leap" None (Some "ghost"))
                     Hcur _) _)).
    + by vm_compute.
    + intros t [= <-]. right. by vm_compute.
Defined.

(** ** Overwrite semantics of the expansion *)

(** C6. Merge a first result at node [n], then a second one at the same
    node (whatever node value the second request captured).  The choice
    list of [n] is then exactly the list built from the second result: one
    choice per descriptor of the second result, with its text, in order,
    and nothing of the first list is kept.  No key is lost in the second
    merge; in particular every node that the first merge minted is a key
    after the first merge and still a key after the second, and so is
    every target of the first merge's choices that is not a name [nodes]
    inherits; and a node other than [n] whose id is not one the second
    merge prints is left as it was. *)
Theorem second_merge_replaces_choices (clock1 clock2 : nat → N)
    (req : Player.Request) (r1 r2 : Player.AiResult) (cn2 : StoryNode) (a : App) :
  let n := Player.req_currentNodeId req in
  let s := Player.req_story req in
  let a1 := Player.handleAiGeneration_complete clock1 req (Some r1) a in
  let a2 := Player.handleAiGeneration_complete clock2 (Player.mkRequest s n cn2)
              (Some r2) a1 in
  (∃ node, doc_nodes a2 !! n = Some node
     ∧ choices node = Player.newChoices clock2 (Player.result_choices r2) (doc_nodes a1)
     ∧ List.length (choices node) = List.length (Player.result_choices r2)
     ∧ text <$> choices node = Player.descr_text <$> Player.result_choices r2)
  ∧ (∀ k, is_Some (doc_nodes a1 !! k) → is_Some (doc_nodes a2 !! k))
  ∧ (∀ i c, Player.result_choices r1 !! i = Some c →
       let sb := Player.stateBefore clock1 i (Player.result_choices r1)
                   (deref (heap a) (nodes s)) in
       Player.converges sb.1 c = None →
       is_Some (doc_nodes a1 !! Player.aiNodeId clock1 sb.2 i)
       ∧ is_Some (doc_nodes a2 !! Player.aiNodeId clock1 sb.2 i))
  ∧ (∀ ch, ch ∈ Player.newChoices clock1 (Player.result_choices r1)
                   (deref (heap a) (nodes s)) →
       inherited (targetNodeId ch) = false →
       is_Some (doc_nodes a2 !! targetNodeId ch))
  ∧ (∀ k, k ≠ n → (∀ k' j, k ≠ Player.aiNodeId clock2 k' j) →
       doc_nodes a2 !! k = doc_nodes a1 !! k).
Proof.
  intros n s a1 a2.
  assert (doc_nodes a2
          = Player.mergeNodes clock2 (Player.mkRequest s n cn2) r2 (doc_nodes a1)) as H2.
  { subst a2. rewrite complete_nodes. by subst a1. }
  assert (∀ k, is_Some (doc_nodes a1 !! k) → is_Some (doc_nodes a2 !! k)) as Hkeep.
  { intros k Hk. rewrite H2. by apply mergeNodes_keys. }
  split_and!.
  - eexists. split; [|split_and!].
    + rewrite H2.
      apply (mergeNodes_current clock2 (Player.mkRequest s n cn2) r2 (doc_nodes a1)).
    + done.
    + simpl. apply mapChoices_length.
    + simpl. apply mapChoices_texts.
  - done.
  - intros i c Hi sb Hc.
    assert (is_Some (doc_nodes a1 !! Player.aiNodeId clock1 sb.2 i)) as H1.
    { subst a1. rewrite complete_nodes. fold s. unfold Player.mergeNodes.
      pose proof (mapChoices_minted clock1 (Player.result_choices r1) i c
                    (deref (heap a) (nodes s)) Hi Hc) as Hm.
      fold sb in Hm.
      destruct (Player.mapChoices clock1 0 (Player.result_choices r1)
                  (deref (heap a) (nodes s), 0%nat)) as [chs [m1 k1]].
      cbn [fst snd] in Hm. rewrite lookup_insert. case_decide; [by eexists|done]. }
    split; [done|by apply Hkeep].
  - intros ch Hch Hinh. apply Hkeep. subst a1. rewrite complete_nodes.
    fold s. unfold Player.mergeNodes, Player.newChoices in *.
    pose proof (mapChoices_targets clock1 (Player.result_choices r1) 0
                  (deref (heap a) (nodes s)) 0 ch Hch) as Ht.
    destruct (Player.mapChoices clock1 0 (Player.result_choices r1)
                (deref (heap a) (nodes s), 0%nat)) as [chs [m1 k1]].
    cbn [fst snd] in Ht. destruct Ht as [Ht|[Ht _]]; [|congruence].
    rewrite lookup_insert. case_decide; [by eexists|done].
  - intros k Hk Hprint. rewrite H2. unfold Player.mergeNodes.
    pose proof (mapChoices_other clock2 (Player.result_choices r2) 0
                  (doc_nodes a1) 0 k (λ k' j _, Hprint k' j)) as Hoth.
    destruct (Player.mapChoices clock2 0 (Player.result_choices r2)
                (doc_nodes a1, 0%nat)) as [chs [m1 k1]].
    cbn [fst snd] in Hoth. simpl. by rewrite lookup_insert_ne.
Qed.

Lemma second_merge_replaces_choices_witness :
  let a1 := Player.handleAiGeneration_complete sample_clock req_C
              (Some sample_result) abc_doc in
  let a2 := Player.handleAiGeneration_complete later_clock
              (Player.mkRequest (story abc_doc) "C" (scene "C" []))
              (Some second_result) a1 in
  Player.aiNodeId sample_clock 0 0 = "ai-node-1700000000000-0"
  ∧ is_Some (doc_nodes a1 !! Player.aiNodeId sample_clock 0 0)
  ∧ is_Some (doc_nodes a2 !! Player.aiNodeId sample_clock 0 0)
  ∧ choices <$> doc_nodes a2 !! "C"
    = Some [mkChoice "ai-choice-1700000000011-0" "Wait" "ai-node-1700000000010-0"].
Proof.
  intros a1 a2.
  pose proof (proj1 (proj2 (proj2 (second_merge_replaces_choices sample_clock
                 later_clock req_C sample_result second_result (scene "C" [])
                 abc_doc)))
               0%nat (Player.mkAiChoice "Enter" (Some "A vaulted room.") None)
               eq_refl eq_refl) as [H1 H2].
  split_and!.
  - by vm_compute.
  - exact H1.
  - exact H2.
  - by vm_compute.
Defined.

(** ** Start-node permanence, all mutations *)

(** C2. Deleting the start node is rejected: the heap and the story are
    the ones before, the editor's own state is untouched and the
    rejection is reported.  Every editor action (create, save an edited
    node, delete, add or remove a choice, select) and every completion of
    an expansion keeps the start node a key of [nodes]. *)
Theorem start_node_permanence :
  (∀ (st : Editor.State) (confirmed : bool),
     let st' := Editor.handleDeleteNode confirmed
                  (startNodeId (story (Editor.app st))) st in
     heap (Editor.app st') = heap (Editor.app st)
     ∧ story (Editor.app st') = story (Editor.app st)
     ∧ alerts (Editor.app st')
       = (alerts (Editor.app st) ++ ["The origin cannot be unmade."])%list
     ∧ Editor.editNode st' = Editor.editNode st
     ∧ Editor.selectedNodeId st' = Editor.selectedNodeId st)
  ∧ (∀ (ev : Editor.Event) (st : Editor.State),
       start_valid (Editor.app st) →
       start_valid (Editor.app (Editor.dispatch ev st)))
  ∧ (∀ (clock : nat → N) (req : Player.Request) (response : option Player.AiResult)
       (a : App),
       start_valid a →
       start_valid (mkApp (heap a) (Player.req_story req) (alerts a)) →
       start_valid (Player.handleAiGeneration_complete clock req response a)).
Proof.
  split_and!.
  - intros st confirmed st'. subst st'. unfold Editor.handleDeleteNode.
    by rewrite decide_True.
  - apply dispatch_start_valid.
  - intros clock req [r|] a Ha Hreq; [|done].
    unfold start_valid in *. rewrite complete_nodes. simpl.
    by apply mergeNodes_keys.
Qed.

Lemma start_node_permanence_witness :
  start_valid (Editor.app (Editor.mount abc_doc))
  ∧ start_valid (Editor.app (Editor.dispatch (Editor.DeleteNode true "B")
                               (Editor.mount abc_doc))).
Proof.
  assert (start_valid (Editor.app (Editor.mount abc_doc))) as H0
    by (vm_compute; by eexists).
  split; [done|].
  exact (proj1 (proj2 start_node_permanence) (Editor.DeleteNode true "B")
               (Editor.mount abc_doc) H0).
Defined.

(** ** Restart *)

Lemma restart_history (confirmed : bool) (st : Player.State) :
  Player.history (Player.restart confirmed st) = Player.history st.
Proof. by destruct confirmed. Qed.

(** C7, at the session that walked A, B, C.  Restart moves the pointer to
    the start node and leaves the history as it was, three entries long:
    it is not reset to the one-entry list of the start node, and the
    pointer is no longer the last entry of the history. *)
Theorem restart_leaves_history :
  let st := Player.restart true walked_ABC in
  Player.currentNodeId st = startNodeId (story (Player.app st))
  ∧ Player.history st = ["A"; "B"; "C"]
  ∧ Player.history st ≠ [startNodeId (story (Player.app st))]
  ∧ last (Player.history st) ≠ Some (Player.currentNodeId st)
  ∧ Player.history (Player.mount (Player.app st)) = ["A"].
Proof. by vm_compute. Qed.

(** ** Creating nodes *)

Lemma crashed_render (st : Editor.State) :
  Editor.crashed (Editor.render st) = Editor.crashed st.
Proof. unfold Editor.render. by case_decide. Qed.

Lemma handleAddNode_selected (now : N) (st : Editor.State) :
  Editor.crashed (Editor.handleAddNode now st) = Editor.crashed st
  ∧ Editor.selectedNodeId (Editor.handleAddNode now st) = Some (Editor.newNodeId now)
  ∧ Editor.editNode (Editor.handleAddNode now st) = Some (Editor.newNode now)
  ∧ alerts (Editor.app (Editor.handleAddNode now st)) = alerts (Editor.app st).
Proof.
  unfold Editor.handleAddNode, Editor.handleSelectNode. simpl.
  by rewrite deref_insert_eq, lookup_insert_eq.
Qed.

Lemma run_AddNode (ts : list N) (st : Editor.State) :
  Editor.crashed st = false →
  let st' := Editor.run (Editor.AddNode <$> ts) st in
  doc_nodes (Editor.app st') = foldl insertNew (doc_nodes (Editor.app st)) ts
  ∧ Editor.crashed st' = false
  ∧ alerts (Editor.app st') = alerts (Editor.app st).
Proof.
  revert st. induction ts as [|t ts IH]; intros st Hc; [done|].
  cbn [fmap list_fmap Editor.run foldl]. cbn zeta.
  set (st1 := Editor.dispatch (Editor.AddNode t) st).
  assert (st1 = Editor.render (Editor.handleAddNode t st)) as Hst1
    by (subst st1; unfold Editor.dispatch; by rewrite Hc).
  destruct (handleAddNode_selected t st) as (Hcr & _ & _ & Hal).
  assert (Editor.crashed st1 = false) as Hc1
    by (rewrite Hst1, crashed_render; congruence).
  destruct (IH st1 Hc1) as (Hn & Hc' & Ha'). fold (Editor.run (Editor.AddNode <$> ts) st1).
  split_and!.
  - rewrite Hn, Hst1, app_render, handleAddNode_nodes. done.
  - done.
  - rewrite Ha', Hst1, app_render. done.
Qed.

Lemma foldl_insertNew_lookup (ts : list N) (m : NodeMap) :
  (∀ t, t ∈ ts → foldl insertNew m ts !! Editor.newNodeId t = Some (Editor.newNode t))
  ∧ (∀ k, k ∉ Editor.newNodeId <$> ts → foldl insertNew m ts !! k = m !! k).
Proof.
  revert m. induction ts as [|t ts IH]; intros m.
  - split; [by intros t ?%elem_of_nil|done].
  - cbn [foldl]. destruct (IH (insertNew m t)) as [IH1 IH2]. split.
    + intros t' Ht'. destruct (decide (t' ∈ ts)) as [Hin|Hnin]; [by apply IH1|].
      apply elem_of_cons in Ht' as [->|?]; [|done].
      rewrite IH2; [apply lookup_insert_eq|].
      intros (t'' & Heq & Hin)%list_elem_of_fmap.
      apply newNodeId_inj in Heq as ->. done.
    + intros k Hk. rewrite fmap_cons in Hk. apply not_elem_of_cons in Hk as [Hne Hk].
      rewrite IH2 by done. unfold insertNew. by rewrite lookup_insert_ne.
Qed.

Lemma foldl_insertNew_size (ts : list N) (m : NodeMap) :
  NoDup ts → (∀ t, t ∈ ts → m !! Editor.newNodeId t = None) →
  size (foldl insertNew m ts) = (size m + List.length ts)%nat.
Proof.
  revert m. induction ts as [|t ts IH]; intros m Hnd Hfresh.
  - simpl. lia.
  - cbn [foldl List.length]. apply NoDup_cons in Hnd as [Hnin Hnd].
    rewrite IH; [|done|].
    + unfold insertNew. rewrite map_size_insert_None by (apply Hfresh; left). lia.
    + intros t' Ht'. unfold insertNew. rewrite lookup_insert_ne.
      * apply Hfresh. by right.
      * intros Heq. apply newNodeId_inj in Heq as ->. done.
Qed.

(** C9, refuted.  Two creates in the same millisecond are assigned the
    same id: after the second one the selection is the id the first one
    got, and the document has one node more than before, not two. *)
Lemma create_twice_same_millisecond :
  let st0 := Editor.mount abc_doc in
  let st1 := Editor.dispatch (Editor.AddNode 1700000000000) st0 in
  let st2 := Editor.dispatch (Editor.AddNode 1700000000000) st1 in
  Editor.selectedNodeId st1 = Some "node-1700000000000"
  ∧ Editor.selectedNodeId st2 = Some "node-1700000000000"
  ∧ ¬ NoDup (Editor.newNodeId <$> [1700000000000; 1700000000000]%N)
  ∧ size (doc_nodes (Editor.app st0)) = 3%nat
  ∧ size (doc_nodes (Editor.app st2)) = 4%nat.
Proof.
  split_and!; try by vm_compute.
  intros Hnd. apply NoDup_cons in Hnd as [Hnin _]. apply Hnin. by left.
Qed.

(** C9, as the code has it.  A sequence of creates with clock readings
    [ts] is never rejected (no alert, the editor keeps running); each
    create selects its id [node-<reading>] and stores under it a node with
    an empty choice list; keys that are not such ids keep their nodes.  The
    assigned ids are pairwise distinct when the readings are, and when in
    addition none of them is a key beforehand, every create adds a
    node. *)
Theorem create_nodes (ts : list N) (st : Editor.State) :
  Editor.crashed st = false →
  let st' := Editor.run (Editor.AddNode <$> ts) st in
  let before := doc_nodes (Editor.app st) in
  let after := doc_nodes (Editor.app st') in
  (Editor.crashed st' = false ∧ alerts (Editor.app st') = alerts (Editor.app st))
  ∧ (∀ t, Editor.selectedNodeId (Editor.handleAddNode t st)
          = Some ("node-" +:+ pretty t))
  ∧ (∀ t, t ∈ ts →
       after !! ("node-" +:+ pretty t)
       = Some (mkNode ("node-" +:+ pretty t) "New Chapter"
                      "A new thread begins..." [] None None))
  ∧ (∀ k, k ∉ Editor.newNodeId <$> ts → after !! k = before !! k)
  ∧ (NoDup ts → NoDup (Editor.newNodeId <$> ts))
  ∧ (NoDup ts → (∀ t, t ∈ ts → before !! Editor.newNodeId t = None) →
     size after = (size before + List.length ts)%nat).
Proof.
  intros Hc st' before after.
  destruct (run_AddNode ts st Hc) as (Hn & Hc' & Ha).
  fold st' in Hn, Hc', Ha. fold after before in Hn.
  destruct (foldl_insertNew_lookup ts before) as [Hl1 Hl2].
  split_and!.
  - done.
  - done.
  - intros t. by destruct (handleAddNode_selected t st) as (_ & ? & _).
  - intros t Ht. rewrite Hn. by apply Hl1.
  - intros k Hk. rewrite Hn. by apply Hl2.
  - intros Hnd. apply (NoDup_fmap_2 _). done.
  - intros Hnd Hfresh. rewrite Hn. by apply foldl_insertNew_size.
Qed.

Lemma create_nodes_witness :
  Editor.crashed (Editor.mount abc_doc) = false
  ∧ size (doc_nodes (Editor.app
        (Editor.run (Editor.AddNode <$> [1700000000000; 1700000000001]%N)
                    (Editor.mount abc_doc)))) = 5%nat.
Proof.
  split; [done|].
  refine (proj2 (proj2 (proj2 (proj2 (proj2
            (create_nodes [1700000000000; 1700000000001]%N (Editor.mount abc_doc) _)))))
            _ _).
  - done.
  - apply NoDup_cons. split; [|apply NoDup_singleton].
    intros Hin%list_elem_of_singleton. discriminate.
  - intros t Ht. apply elem_of_cons in Ht as [->|Ht]; [by vm_compute|].
    apply list_elem_of_singleton in Ht as ->. by vm_compute.
Defined.

(** ** Orphan detection *)

Lemma elem_of_linkedNodeIds_of (m : NodeMap) (t : string) :
  t ∈ linkedNodeIds_of m
  ↔ ∃ k n c, m !! k = Some n ∧ c ∈ choices n ∧ targetNodeId c = t.
Proof.
  unfold linkedNodeIds_of. rewrite elem_of_list_to_set, list_elem_of_bind. split.
  - intros ([k n] & Hc & Hkn). apply list_elem_of_fmap in Hc as (c & -> & Hc).
    apply elem_of_map_to_list in Hkn. by exists k, n, c.
  - intros (k & n & c & Hkn & Hc & <-). exists (k, n). split.
    + apply list_elem_of_fmap. by exists c.
    + by apply elem_of_map_to_list.
Qed.

(** What the badge of line 342 says in an editor that has just been
    mounted on the document: the node is not the start node and no choice
    of any node targets it. *)
Lemma isOrphan_mount_iff (a : App) (node : StoryNode) :
  Editor.isOrphan (Editor.mount a) node = true
  ↔ node_id node ≠ startNodeId (story a)
    ∧ ¬ ∃ k n c, doc_nodes a !! k = Some n ∧ c ∈ choices n
                 ∧ targetNodeId c = node_id node.
Proof.
  unfold Editor.isOrphan. cbn [Editor.mount Editor.app Editor.linkedNodeIds snd].
  rewrite andb_true_iff, negb_true_iff, bool_decide_eq_true, bool_decide_eq_false.
  by rewrite elem_of_linkedNodeIds_of.
Qed.

Lemma memo_handle (ev : Editor.Event) (st : Editor.State) :
  Editor.linkedNodeIds (Editor.handle ev st) = Editor.linkedNodeIds st.
Proof.
  destruct ev; simpl.
  - unfold Editor.handleSelectNode. by case_match.
  - unfold Editor.handleSaveNode. by case_match.
  - unfold Editor.handleAddNode, Editor.handleSelectNode. by case_match.
  - unfold Editor.handleDeleteNode, Editor.handleSelectNode.
    repeat case_match; done.
  - unfold Editor.handleAddChoice. by case_match.
  - unfold Editor.removeChoice. by case_match.
Qed.

Lemma memo_dispatch (ev : Editor.Event) (st : Editor.State) :
  fst (Editor.linkedNodeIds st) = nodes (story (Editor.app st)) →
  Editor.linkedNodeIds (Editor.dispatch ev st) = Editor.linkedNodeIds st
  ∧ story (Editor.app (Editor.dispatch ev st)) = story (Editor.app st).
Proof.
  intros Hdep. unfold Editor.dispatch. destruct (Editor.crashed st); [done|].
  unfold Editor.render. rewrite memo_handle, story_handle.
  rewrite decide_True by done. by rewrite memo_handle, story_handle.
Qed.

Lemma nothing_reachable_from_leaf (m : NodeMap) (start id : string) (n : StoryNode) :
  m !! start = Some n → choices n = [] → reachable m start id → id = start.
Proof.
  intros Hn Hcs Hr. induction Hr as [|a n' c _ IH Ha Hc]; [done|].
  subst a. rewrite Hn in Ha. injection Ha as <-. rewrite Hcs in Hc.
  by apply elem_of_nil in Hc.
Qed.

(** C8, in a running editor.  Selecting, saving, creating, deleting and
    adding or removing a choice all leave the identity of [story.nodes] as
    it is, so the memoised set of link targets is the one computed at
    mount, whatever was saved since.  In the document A → B: removing
    A's only choice and saving leaves no choice that targets B, yet B is
    still not reported as an orphan; an editor mounted afresh on the same
    document reports it. *)
Theorem orphan_report_is_stale :
  (∀ (evs : list Editor.Event) (st : Editor.State),
     fst (Editor.linkedNodeIds st) = nodes (story (Editor.app st)) →
     Editor.linkedNodeIds (Editor.run evs st) = Editor.linkedNodeIds st)
  ∧ (let st := Editor.run [Editor.RemoveChoice 0; Editor.SaveNode]
                          (Editor.mount ab_doc) in
     choices <$> doc_nodes (Editor.app st) !! "A" = Some []
     ∧ linkedNodeIds_of (doc_nodes (Editor.app st)) = ∅
     ∧ Editor.isOrphan st (scene "B" []) = false
     ∧ Editor.isOrphan (Editor.mount (Editor.app st)) (scene "B" []) = true).
Proof.
  split.
  - intros evs. induction evs as [|ev evs IH]; intros st Hdep; [done|].
    cbn [Editor.run foldl]. destruct (memo_dispatch ev st Hdep) as [Hm Hs].
    fold (Editor.run evs (Editor.dispatch ev st)).
    rewrite IH; [done|]. by rewrite Hm, Hs.
  - by vm_compute.
Qed.

Lemma orphan_report_is_stale_witness :
  Editor.linkedNodeIds
    (Editor.run [Editor.AddChoice 1700000000000; Editor.SaveNode]
                (Editor.mount ab_doc))
  = Editor.linkedNodeIds (Editor.mount ab_doc).
Proof.
  apply (proj1 orphan_report_is_stale). by vm_compute.
Defined.

(** C10, in a running editor.  The editor is mounted on the document
    with the start node A and the scene W, both without choices.  The
    user adds a choice to A, picks W as its destination and saves.  The
    document then holds a choice of A that targets W, and W is not the
    start node, yet W is still reported as an orphan: the set of link
    targets is the one memoised at mount.  An editor mounted afresh on the
    same document does not report W. *)
Theorem targeted_node_reported_orphan :
  let st0 := Editor.mount aw_doc in
  let st1 := Editor.dispatch (Editor.AddChoice 1700000000000) st0 in
  let st2 := Editor.render (Editor.setChoiceTarget 0 "W" st1) in
  let st3 := Editor.dispatch Editor.SaveNode st2 in
  Editor.isOrphan st0 (scene "W" []) = true
  ∧ choices <$> Editor.editNode st1
    = Some [mkChoice "choice-1700000000000" "New Path" "A"]
  ∧ choices <$> doc_nodes (Editor.app st3) !! "A"
    = Some [mkChoice "choice-1700000000000" "New Path" "W"]
  ∧ "W" ∈ linkedNodeIds_of (doc_nodes (Editor.app st3))
  ∧ "W" ≠ startNodeId (story (Editor.app st3))
  ∧ Editor.crashed st3 = false
  ∧ Editor.isOrphan st3 (scene "W" []) = true
  ∧ Editor.isOrphan (Editor.mount (Editor.app st3)) (scene "W" []) = false.
Proof.
  split_and!; by vm_compute.
Qed.

(** X21. In an editor that has just been mounted on any document, a node
    whose id is the target of a choice of any stored node (the node
    itself, or a node that the start node does not reach) is not reported
    as an orphan.  In the cluster document X and Y target each other and
    Z targets itself; none is reachable from the start node and none is
    reported, while W, which nothing targets, is. *)
Theorem inbound_edge_not_orphan :
  (∀ (a : App) (node owner : StoryNode) (k : string) (c : Choice),
     doc_nodes a !! k = Some owner → c ∈ choices owner →
     targetNodeId c = node_id node →
     Editor.isOrphan (Editor.mount a) node = false)
  ∧ (let m := doc_nodes cluster_doc in
     let st := Editor.mount cluster_doc in
     (∀ id, reachable m "A" id → id = "A")
     ∧ Editor.isOrphan st (scene "X" [edge "X" "Y"]) = false
     ∧ Editor.isOrphan st (scene "Y" [edge "Y" "X"]) = false
     ∧ Editor.isOrphan st (scene "Z" [edge "Z" "Z"]) = false
     ∧ Editor.isOrphan st (scene "W" []) = true).
Proof.
  split.
  - intros a node owner k c Hk Hc Ht.
    destruct (Editor.isOrphan (Editor.mount a) node) eqn:Ho; [|done].
    apply isOrphan_mount_iff in Ho as [_ Hno]. destruct Hno. by exists k, owner, c.
  - split_and!; try by vm_compute.
    intros id. by apply (nothing_reachable_from_leaf _ _ _ (scene "A" [])).
Qed.

Lemma inbound_edge_not_orphan_witness :
  doc_nodes cluster_doc !! "Z" = Some (scene "Z" [edge "Z" "Z"])
  ∧ Editor.isOrphan (Editor.mount cluster_doc) (scene "Z" [edge "Z" "Z"]) = false.
Proof.
  assert (doc_nodes cluster_doc !! "Z" = Some (scene "Z" [edge "Z" "Z"])) as Hz
    by (by vm_compute).
  split; [done|].
  apply (proj1 inbound_edge_not_orphan cluster_doc _ (scene "Z" [edge "Z" "Z"])
               "Z" (edge "Z" "Z") Hz).
  - by left.
  - done.
Defined.

(** ** Import *)

(** The editor's import rejects a candidate that lacks [nodes],
    [startNodeId] or [name] and leaves the document as it was. *)
Lemma editor_import_rejects (c : ImportFlow.Candidate) (st : ImportFlow.State) :
  ImportFlow.cand_nodes c = None ∨ ImportFlow.cand_startNodeId c = None
    ∨ ImportFlow.cand_name c = None →
  ImportFlow.editor_handleImportFile (Some c) st
  = ImportFlow.mkState (ImportFlow.doc st) (ImportFlow.pendingImport st)
      (ImportFlow.alerts st ++ [ImportFlow.failed_msg])%list.
Proof.
  unfold ImportFlow.editor_handleImportFile.
  intros [H|[H|H]]; rewrite H; simpl; [done| |].
  - by rewrite orb_true_r.
  - by rewrite orb_true_r.
Qed.

(** The welcome screen's import looks at [nodes] only: whatever else the
    candidate has or lacks, it becomes the document once the dialog is
    answered, with its embedded images normalised. *)
Lemma welcome_import_checks_nodes_only (resize : string → string)
    (loads : string → bool)
    (c : ImportFlow.Candidate) (m : NodeMap) (st : ImportFlow.State) :
  ImportFlow.cand_nodes c = Some m →
  ImportFlow.settles loads m = true →
  let st' := ImportFlow.finalizeImport
               (ImportFlow.app_handleImportFile resize loads (Some c) st) in
  ImportFlow.doc st'
  = ImportFlow.mkCandidate (ImportFlow.cand_id c) (ImportFlow.cand_name c)
      (Some (ImportFlow.normalizeImage resize <$> m))
      (ImportFlow.cand_startNodeId c) (ImportFlow.cand_imageStyle c)
  ∧ ImportFlow.alerts st' = ImportFlow.alerts st.
Proof.
  intros Hm Hs. unfold ImportFlow.app_handleImportFile. by rewrite Hm, Hs.
Qed.

(** The editor's import takes a candidate exactly when the three fields
    are present and the two strings are not empty. *)
Lemma editor_import_accepts (c : ImportFlow.Candidate) (st : ImportFlow.State) :
  ImportFlow.doc (ImportFlow.editor_handleImportFile (Some c) st) = c
  ∧ ImportFlow.alerts (ImportFlow.editor_handleImportFile (Some c) st)
    = (ImportFlow.alerts st ++ ["Saga integrated successfully."])%list
  ↔ is_Some (ImportFlow.cand_nodes c)
    ∧ truthy (ImportFlow.cand_startNodeId c) = true
    ∧ truthy (ImportFlow.cand_name c) = true.
Proof.
  unfold ImportFlow.editor_handleImportFile.
  destruct (bool_decide (is_Some (ImportFlow.cand_nodes c))) eqn:H1;
    destruct (truthy (ImportFlow.cand_startNodeId c)) eqn:H2;
    destruct (truthy (ImportFlow.cand_name c)) eqn:H3; simpl;
    try apply bool_decide_eq_true in H1; try apply bool_decide_eq_false in H1;
    split; try done; try (by intros (? & ? & ?));
    intros [_ Hal]; apply app_inv_head in Hal; discriminate.
Qed.

(** C4, on the welcome screen.  The import of App.tsx takes the candidate
    without [startNodeId]: no alert is shown, the candidate waits in the
    dialog, and either button of the dialog makes it the document.  The
    editor's import rejects the same candidate.  (The candidate has no
    images, so nothing is awaited.) *)
Theorem welcome_import_takes_missing_start (resize : string → string)
    (loads : string → bool) (st : ImportFlow.State) :
  let pending :=
    ImportFlow.app_handleImportFile resize loads (Some no_start_candidate) st in
  let st' := ImportFlow.finalizeImport pending in
  ImportFlow.cand_startNodeId no_start_candidate = None
  ∧ ImportFlow.pendingImport pending = Some no_start_candidate
  ∧ ImportFlow.doc st' = no_start_candidate
  ∧ ImportFlow.alerts st' = ImportFlow.alerts st
  ∧ ImportFlow.doc (ImportFlow.editor_handleImportFile (Some no_start_candidate) st)
    = ImportFlow.doc st.
Proof. by vm_compute. Qed.

(** * Further properties *)

(** ** The playback session *)

Lemma app_play (mv : Move) (st : Player.State) :
  Player.app (play mv st) = Player.app st.
Proof.
  destruct mv; simpl; [done|]. unfold Player.handleStepBack. by case_decide.
Qed.

Lemma app_plays (mvs : list Move) (st : Player.State) :
  Player.app (plays mvs st) = Player.app st.
Proof.
  revert st. induction mvs as [|mv mvs IH]; intros st; [done|].
  cbn [plays foldl]. fold (plays mvs (play mv st)). by rewrite IH, app_play.
Qed.

(** What [handleStepBack] does to a history of at least two entries. *)
Lemma handleStepBack_snoc (st : Player.State) (h : list string) (x y : string) :
  Player.history st = (h ++ [x; y])%list →
  Player.handleStepBack st
  = Player.mkState (Player.app st) x (h ++ [x])%list (Player.isGenerating st).
Proof.
  intros Hh. unfold Player.handleStepBack. rewrite Hh.
  rewrite decide_False by (rewrite length_app; simpl; lia).
  replace (h ++ [x; y])%list with ((h ++ [x]) ++ [y])%list by by rewrite <-app_assoc.
  rewrite removelast_last. by rewrite last_snoc.
Qed.

Lemma play_session_ok (mv : Move) (st : Player.State) :
  session_ok st → session_ok (play mv st).
Proof.
  intros [Hhd Hlast]. destruct mv as [t|]; simpl.
  - split; simpl.
    + destruct (Player.history st); [done|]. done.
    + by rewrite last_snoc.
  - destruct (Player.history st) as [|y h _] eqn:Hh using rev_ind; [done|].
    destruct h as [|x h _] using rev_ind.
    + unfold Player.handleStepBack. rewrite Hh. simpl.
      unfold session_ok. by rewrite Hh.
    + rewrite <-app_assoc in Hh. simpl in Hh.
      rewrite (handleStepBack_snoc st h x y Hh). split; simpl.
      * rewrite <-Hhd. rewrite <-app_assoc. simpl. by destruct h.
      * by rewrite last_snoc.
Qed.

Lemma plays_session_ok (mvs : list Move) (st : Player.State) :
  session_ok st → session_ok (plays mvs st).
Proof.
  revert st. induction mvs as [|mv mvs IH]; intros st H0; [done|].
  cbn [plays foldl]. apply IH. by apply play_session_ok.
Qed.

(** X1. Whatever buttons are pressed after the player is mounted, the
    history starts at the start node and ends at the current node, and the
    document is not touched. *)
Theorem session_stays_coherent (mvs : list Move) (a : App) :
  session_ok (plays mvs (Player.mount a))
  ∧ Player.app (plays mvs (Player.mount a)) = a.
Proof.
  split; [|by rewrite app_plays]. by apply plays_session_ok.
Qed.

(** X2. In a coherent session the back arrow undoes a choice: the state is
    the one before the choice.  With at most one entry in the history the
    back arrow does nothing. *)
Theorem step_back_undoes_choice (st : Player.State) (targetId : string) :
  last (Player.history st) = Some (Player.currentNodeId st) →
  Player.handleStepBack (Player.handleChoice targetId st) = st
  ∧ (∀ st', (List.length (Player.history st') ≤ 1)%nat →
            Player.handleStepBack st' = st').
Proof.
  intros Hlast. split.
  - destruct (Player.history st) as [|x h _] eqn:Hh using rev_ind; [done|].
    rewrite last_snoc in Hlast. injection Hlast as Hx.
    rewrite (handleStepBack_snoc _ h x targetId).
    + destruct st; simpl in *. by subst.
    + simpl. rewrite Hh. by rewrite <-app_assoc.
  - intros st' Hlen. unfold Player.handleStepBack. by rewrite decide_True.
Qed.

Lemma step_back_undoes_choice_witness :
  last (Player.history at_C) = Some (Player.currentNodeId at_C)
  ∧ Player.handleStepBack (Player.handleChoice "B" at_C) = at_C.
Proof.
  split; [done|].
  by apply (proj1 (step_back_undoes_choice at_C "B" eq_refl)).
Defined.

Lemma no_dangling_lookup (m : NodeMap) (k : string) (n : StoryNode) (c : Choice) :
  no_dangling m → m !! k = Some n → c ∈ choices n → is_Some (m !! targetNodeId c).
Proof.
  intros Hnd Hk Hc. specialize (Hnd k n Hk). simpl in Hnd.
  by apply (proj1 (Forall_forall _ _) Hnd).
Qed.

Lemma play_visits_keys (mv : Move) (st : Player.State) :
  no_dangling (doc_nodes (Player.app st)) →
  offered st mv →
  Forall (λ id, is_Some (doc_nodes (Player.app st) !! id)) (Player.history st) →
  Forall (λ id, is_Some (doc_nodes (Player.app st) !! id)) (Player.history (play mv st)).
Proof.
  intros Hnd Hoff Hall. destruct mv as [t|]; simpl.
  - destruct Hoff as (n & c & Hn & Hc & <-).
    apply Forall_app. split; [done|]. apply Forall_singleton.
    by apply (no_dangling_lookup _ _ _ _ Hnd Hn).
  - unfold Player.handleStepBack. case_decide; [done|]. simpl.
    destruct (Player.history st) as [|y h _] using rev_ind; [done|].
    rewrite removelast_last. by apply Forall_app in Hall as [? _].
Qed.

(** X3. On a document whose start node exists and whose choices all target
    keys, a walk along offered buttons only visits keys: after it the
    current node is defined, and a request for an expansion is issued with
    that node (no visited id makes [history.map] throw). *)
Theorem walk_stays_on_nodes (mvs : list Move) (a : App) :
  start_valid a → no_dangling (doc_nodes a) →
  walk mvs (Player.mount a) →
  let st := plays mvs (Player.mount a) in
  Forall (λ id, is_Some (doc_nodes a !! id)) (Player.history st)
  ∧ ∃ n, Player.currentNode st = Some n
         ∧ (Player.handleAiGeneration_request true st).2
           = Some (Player.mkRequest (story a) (Player.currentNodeId st) n).
Proof.
  intros Hstart Hnd Hwalk st.
  assert (Forall (λ id, is_Some (doc_nodes a !! id)) (Player.history st)
          ∧ session_ok st ∧ Player.app st = a) as (Hall & [_ Hlast] & Happ).
  { subst st. split; [|split; [by apply plays_session_ok|by rewrite app_plays]].
    assert (Forall (λ id, is_Some (doc_nodes a !! id))
                   (Player.history (Player.mount a))) as H0
      by (by apply Forall_singleton).
    assert (Player.app (Player.mount a) = a) as Ha by done.
    generalize dependent (Player.mount a).
    induction mvs as [|mv mvs IH]; intros st0 Hw H0 Ha; [done|].
    destruct Hw as [Hoff Hw]. cbn [plays foldl]. apply IH.
    - done.
    - rewrite <-Ha, <-(app_play mv st0). rewrite app_play.
      apply play_visits_keys; by rewrite ?Ha.
    - by rewrite app_play. }
  split; [done|].
  assert (is_Some (doc_nodes a !! Player.currentNodeId st)) as [n Hn].
  { apply last_Some in Hlast as [h Hh]. rewrite Hh in Hall.
    apply Forall_app in Hall as [_ Hx]. by inversion Hx. }
  exists n. unfold Player.handleAiGeneration_request, Player.currentNode.
  rewrite Happ, Hn. split; [done|].
  rewrite (proj2 (forallb_forall _ _)); [done|].
  intros id Hid%list_elem_of_In. apply orb_true_intro. left.
  apply bool_decide_eq_true. by apply (proj1 (Forall_forall _ _) Hall).
Qed.

Lemma walk_stays_on_nodes_witness :
  start_valid abc_doc ∧ no_dangling (doc_nodes abc_doc)
  ∧ walk [Choose "B"; Choose "C"; StepBack] (Player.mount abc_doc)
  ∧ Forall (λ id, is_Some (doc_nodes abc_doc !! id))
           (Player.history (plays [Choose "B"; Choose "C"; StepBack]
                                  (Player.mount abc_doc))).
Proof.
  assert (start_valid abc_doc) as Hs by (vm_compute; by eexists).
  assert (no_dangling (doc_nodes abc_doc)) as Hn
    by (unfold no_dangling; apply (bool_decide_unpack _); by vm_compute).
  assert (walk [Choose "B"; Choose "C"; StepBack] (Player.mount abc_doc)) as Hw.
  { split; [|split; [|split; [|done]]].
    - exists (scene "A" [edge "A" "B"; edge "A" "C"]), (edge "A" "B").
      split_and!; try (by vm_compute). by left.
    - exists (scene "B" [edge "B" "C"]), (edge "B" "C").
      split_and!; try (by vm_compute). by left.
    - vm_compute. lia. }
  split_and!; [done..|].
  exact (proj1 (walk_stays_on_nodes _ abc_doc Hs Hn Hw)).
Defined.

(** ** Referential integrity *)

Lemma no_dangling_iff (m : NodeMap) :
  no_dangling m
  ↔ ∀ k n c, m !! k = Some n → c ∈ choices n → is_Some (m !! targetNodeId c).
Proof.
  split.
  - intros Hnd k n c. by apply no_dangling_lookup.
  - intros H k n Hk. apply Forall_forall. intros c Hc. by apply (H k n c).
Qed.

Lemma no_dangling_insert (m : NodeMap) (k : string) (n : StoryNode) :
  no_dangling m →
  Forall (λ c, is_Some (m !! targetNodeId c)) (choices n) →
  no_dangling (<[k := n]> m).
Proof.
  intros Hnd Hn. apply no_dangling_iff. intros k' n' c Hk' Hc.
  assert (is_Some (m !! targetNodeId c)) as Hold.
  { apply lookup_insert_Some in Hk' as [[<- <-]|[_ Hk']].
    - by apply (proj1 (Forall_forall _ _) Hn).
    - by apply (no_dangling_lookup m k' n' c). }
  rewrite lookup_insert. case_decide; [by eexists|done].
Qed.

Lemma no_dangling_deleteCascade (id : string) (m : NodeMap) :
  no_dangling m → no_dangling (Editor.deleteCascade id m).
Proof.
  intros Hnd. apply no_dangling_iff. intros k n' c.
  rewrite !deleteCascade_lookup. case_decide; [done|].
  destruct (m !! k) as [n|] eqn:Hk; [|done]. intros [= <-]. simpl.
  intros [Hne Hc]%list_elem_of_filter. rewrite decide_False by done.
  destruct (no_dangling_lookup m k n c Hnd Hk Hc) as [n2 ->]. by eexists.
Qed.

Lemma draft_linked_select (id : string) (st : Editor.State) :
  no_dangling (doc_nodes (Editor.app st)) →
  draft_linked (Editor.handleSelectNode (story (Editor.app st)) id st).
Proof.
  intros Hnd en. unfold Editor.handleSelectNode.
  change (deref (heap (Editor.app st)) (nodes (story (Editor.app st))))
    with (doc_nodes (Editor.app st)).
  destruct (doc_nodes (Editor.app st) !! id) as [n|] eqn:Hn; simpl; [|done].
  intros [= <-]. apply Forall_forall. intros c Hc.
  by apply (no_dangling_lookup _ id n c).
Qed.

Lemma handle_editor_ok (ev : Editor.Event) (st : Editor.State) :
  editor_ok st → editor_ok (Editor.handle ev st).
Proof.
  intros (Hs & Hnd & Hdr).
  split; [by apply handle_start_valid|].
  destruct ev as [id| |now|confirmed id|now|idx]; simpl.
  - rewrite app_handleSelectNode. split; [done|]. by apply draft_linked_select.
  - unfold Editor.handleSaveNode.
    destruct (Editor.editNode st) as [en|] eqn:Hen; [|done].
    assert (doc_nodes (Editor.app (Editor.handleSaveNode st))
            = <[node_id en := en]> (doc_nodes (Editor.app st))) as Hdoc
      by (by apply handleSaveNode_nodes).
    unfold Editor.handleSaveNode in Hdoc. rewrite Hen in Hdoc.
    split.
    + rewrite Hdoc. apply no_dangling_insert; [done|]. by apply Hdr.
    + intros en'. unfold draft_linked in Hdr. rewrite Hdoc. simpl. rewrite Hen.
      intros [= <-]. eapply Forall_impl; [by apply Hdr|]. simpl.
      intros c Hc. rewrite lookup_insert. case_decide; [by eexists|done].
  - assert (no_dangling (doc_nodes (Editor.app (Editor.handleAddNode now st))))
      as Hnd'.
    { rewrite handleAddNode_nodes. apply no_dangling_insert; [done|].
      by apply Forall_nil. }
    split; [done|]. intros en.
    destruct (handleAddNode_selected now st) as (_ & _ & -> & _).
    intros [= <-]. by apply Forall_nil.
  - destruct (decide (id = startNodeId (story (Editor.app st)))) as [->|Hne].
    + unfold Editor.handleDeleteNode. rewrite decide_True by done. done.
    + destruct confirmed.
      * assert (no_dangling (doc_nodes (Editor.app
                  (Editor.handleDeleteNode true id st)))) as Hnd'.
        { rewrite handleDeleteNode_nodes by done.
          by apply no_dangling_deleteCascade. }
        split; [done|].
        unfold Editor.handleDeleteNode in *. rewrite decide_False in * by done.
        set (st1 := Editor.with_app _ st) in *.
        rewrite app_handleSelectNode in Hnd'.
        change (story (Editor.app st)) with (story (Editor.app st1)).
        by apply draft_linked_select.
      * unfold Editor.handleDeleteNode. by rewrite decide_False.
  - unfold Editor.handleAddChoice.
    destruct (Editor.editNode st) as [en|] eqn:Hen; [|done].
    split; [done|]. intros en'. simpl. intros [= <-]. simpl.
    apply Forall_app. split; [by apply Hdr|]. by apply Forall_singleton.
  - unfold Editor.removeChoice.
    destruct (Editor.editNode st) as [en|] eqn:Hen; [|done].
    split; [done|]. intros en'. simpl. intros [= <-]. simpl.
    apply Forall_forall. intros c Hc%list_elem_of_delete_inv.
    by apply (proj1 (Forall_forall _ _) (Hdr en Hen)).
Qed.

Lemma editNode_render (st : Editor.State) :
  Editor.editNode (Editor.render st) = Editor.editNode st.
Proof. unfold Editor.render. by case_decide. Qed.

(** X4. An editing session keeps the graph closed: if the start node
    exists, every stored choice targets a key and so does every choice of
    the draft, the same holds after any sequence of selecting, saving,
    creating, deleting and adding or removing choices.  Deleting a node
    never leaves a choice that points at nothing. *)
Theorem editing_keeps_links_closed (evs : list Editor.Event) (st : Editor.State) :
  editor_ok st → editor_ok (Editor.run evs st).
Proof.
  revert st. induction evs as [|ev evs IH]; intros st Hok; [done|].
  cbn [Editor.run foldl]. apply IH.
  unfold Editor.dispatch. destruct (Editor.crashed st); [done|].
  destruct (handle_editor_ok ev st Hok) as (H1 & H2 & H3).
  unfold editor_ok, draft_linked. rewrite app_render, editNode_render. done.
Qed.

Lemma editor_ok_mount (a : App) :
  start_valid a → no_dangling (doc_nodes a) → editor_ok (Editor.mount a).
Proof.
  intros Hs Hnd. split_and!; [done..|]. intros en. simpl. intros Hen.
  apply Forall_forall. intros c Hc.
  by apply (no_dangling_lookup _ _ en c Hnd Hen).
Qed.

Lemma editing_keeps_links_closed_witness :
  editor_ok (Editor.mount abc_doc)
  ∧ no_dangling (doc_nodes (Editor.app
      (Editor.run [Editor.SelectNode "B"; Editor.DeleteNode true "B";
                   Editor.AddChoice 1700000000000; Editor.SaveNode]
                  (Editor.mount abc_doc)))).
Proof.
  assert (editor_ok (Editor.mount abc_doc)) as H0.
  { apply editor_ok_mount; [vm_compute; by eexists|].
    unfold no_dangling. apply (bool_decide_unpack _). by vm_compute. }
  split; [done|].
  exact (proj1 (proj2 (editing_keeps_links_closed _ _ H0))).
Defined.

(** ** The merge and the invariants *)

Section MergeInvariants.

Variable clock : nat → N.

(** A key of the [nodes] object after [map] holds what it held before, or
    a node minted for it. *)
Lemma mapChoices_lookup_cases (cs : list Player.AiChoice) (idx : nat) (m : NodeMap)
    (k : nat) (x : string) :
  (Player.mapChoices clock idx cs (m, k)).2.1 !! x = m !! x
  ∨ ∃ c, (Player.mapChoices clock idx cs (m, k)).2.1 !! x
         = Some (Player.mintedNode x c).
Proof.
  revert idx m k. induction cs as [|c cs IH]; intros idx m k; [by left|].
  rewrite mapChoices_cons; cbn zeta; cbn [fst snd].
  assert ((Player.expandChoice clock idx c (m, k)).2.1 !! x = m !! x
          ∨ (Player.expandChoice clock idx c (m, k)).2.1 !! x
            = Some (Player.mintedNode x c)) as Hhd.
  { unfold Player.expandChoice. destruct (Player.converges m c); simpl; [by left|].
    destruct (decide (Player.aiNodeId clock k idx = x)) as [<-|Hne].
    - right. by rewrite lookup_insert_eq.
    - left. by rewrite lookup_insert_ne. }
  destruct (Player.expandChoice clock idx c (m, k)) as [ch [m1 k1]].
  cbn [fst snd] in *.
  destruct (IH (S idx) m1 k1) as [->|[c' ->]]; [|right; by exists c'].
  destruct Hhd as [->| ->]; [by left|right; by exists c].
Qed.

End MergeInvariants.

(** X5. The expansion merge keeps the graph closed as long as the result
    gives no inherited name as an existing id (unless a node is stored
    under that name): if every stored choice targets a key before the
    merge, the same holds after it, whatever node the request captured.
    A result that gives ["constructor"] breaks it: on the closed document
    A, B, C the test of line 166 passes, no node is minted, and the
    expanded node is left with a choice that targets no node. *)
Theorem merge_keeps_links_closed :
  (∀ (clock : nat → N) (req : Player.Request) (r : Player.AiResult) (m : NodeMap),
     no_dangling m →
     (∀ c t, c ∈ Player.result_choices r →
             Player.targetExistingNodeId c = Some t →
             inherited t = true → is_Some (m !! t)) →
     no_dangling (Player.mergeNodes clock req r m))
  ∧ (let m := doc_nodes abc_doc in
     let m' := Player.mergeNodes sample_clock req_C names_constructor m in
     no_dangling m
     ∧ m !! "constructor" = None
     ∧ choices <$> m' !! "C"
       = Some [mkChoice "ai-link-1700000000000-0" "Rebuild" "constructor"]
     ∧ m' !! "constructor" = None
     ∧ dom m' = dom m
     ∧ ¬ no_dangling m').
Proof.
  split.
  - intros clock req r m Hnd Hnamed. apply no_dangling_iff. intros k n c Hk Hc.
    unfold Player.mergeNodes in *.
    pose proof (mapChoices_targets clock (Player.result_choices r) 0 m 0) as Htg.
    pose proof (mapChoices_keys clock (Player.result_choices r) 0 m 0) as Hkeys.
    pose proof (mapChoices_lookup_cases clock (Player.result_choices r) 0 m 0)
      as Hcases.
    destruct (Player.mapChoices clock 0 (Player.result_choices r) (m, 0%nat))
      as [chs [m1 k1]]. cbn [fst snd] in *.
    assert (is_Some (m1 !! targetNodeId c)) as Hin.
    { apply lookup_insert_Some in Hk as [[_ <-]|[_ Hk]].
      - destruct (Htg c Hc) as [?|[Hinh (c' & Hc' & Ht)]]; [done|].
        apply Hkeys. by apply (Hnamed c').
      - destruct (Hcases k) as [Hold|[c' Hnew]].
        + rewrite Hold in Hk. apply Hkeys.
          by apply (no_dangling_lookup m k n c).
        + rewrite Hnew in Hk. injection Hk as <-. by apply elem_of_nil in Hc. }
    rewrite lookup_insert. case_decide; [by eexists|done].
  - split_and!; try (by vm_compute).
    + unfold no_dangling. apply (bool_decide_unpack _). by vm_compute.
    + intros Hnd. unfold no_dangling in Hnd.
      apply (bool_decide_pack _) in Hnd. by vm_compute in Hnd.
Qed.

Lemma merge_keeps_links_closed_witness :
  no_dangling (doc_nodes abc_doc)
  ∧ no_dangling (Player.mergeNodes sample_clock req_C sample_result
                                   (doc_nodes abc_doc)).
Proof.
  assert (no_dangling (doc_nodes abc_doc)) as H0
    by (unfold no_dangling; apply (bool_decide_unpack _); by vm_compute).
  split; [done|].
  apply (proj1 merge_keeps_links_closed sample_clock req_C sample_result
               (doc_nodes abc_doc) H0).
  intros c t Hc Ht Hinh. vm_compute in Hc.
  apply elem_of_cons in Hc as [->|Hc]; [discriminate Ht|].
  apply elem_of_cons in Hc as [->|Hc]; [|by apply elem_of_nil in Hc].
  injection Ht as <-. by vm_compute in Hinh.
Defined.

(** ** Keys and ids *)

Lemma keys_match_insert (m : NodeMap) (n : StoryNode) :
  keys_match m → keys_match (<[node_id n := n]> m).
Proof. intros Hm. by apply map_Forall_insert_2. Qed.

Lemma keys_match_deleteCascade (id : string) (m : NodeMap) :
  keys_match m → keys_match (Editor.deleteCascade id m).
Proof.
  intros Hm k n'. rewrite deleteCascade_lookup. case_decide; [done|].
  destruct (m !! k) as [n|] eqn:Hk; [|done]. intros [= <-]. simpl.
  by apply (Hm k n).
Qed.

Lemma handle_keys_match (ev : Editor.Event) (st : Editor.State) :
  keys_match (doc_nodes (Editor.app st)) →
  keys_match (doc_nodes (Editor.app (Editor.handle ev st))).
Proof.
  intros Hm. destruct ev as [id| |now|confirmed id|now|idx]; simpl.
  - by rewrite app_handleSelectNode.
  - destruct (Editor.editNode st) as [en|] eqn:Hen.
    + rewrite (handleSaveNode_nodes st en Hen). by apply keys_match_insert.
    + unfold Editor.handleSaveNode. by rewrite Hen.
  - rewrite handleAddNode_nodes. by apply (keys_match_insert _ (Editor.newNode now)).
  - destruct (decide (id = startNodeId (story (Editor.app st)))) as [->|Hne].
    + unfold Editor.handleDeleteNode. by rewrite decide_True.
    + destruct confirmed.
      * rewrite handleDeleteNode_nodes by done. by apply keys_match_deleteCascade.
      * unfold Editor.handleDeleteNode. by rewrite decide_False.
  - unfold Editor.handleAddChoice. by case_match.
  - unfold Editor.removeChoice. by case_match.
Qed.

(** X6. Nodes stay under their own ids: if every node of the document is
    stored under its [id], this still holds after any sequence of editor
    actions, whatever the draft is; and it holds after an expansion merge
    when the captured node carries the id it is written back under. *)
Theorem nodes_stay_under_their_ids :
  (∀ (evs : list Editor.Event) (st : Editor.State),
     keys_match (doc_nodes (Editor.app st)) →
     keys_match (doc_nodes (Editor.app (Editor.run evs st))))
  ∧ (∀ (clock : nat → N) (req : Player.Request) (r : Player.AiResult) (m : NodeMap),
       keys_match m →
       node_id (Player.req_currentNode req) = Player.req_currentNodeId req →
       keys_match (Player.mergeNodes clock req r m)).
Proof.
  split.
  - intros evs. induction evs as [|ev evs IH]; intros st Hm; [done|].
    cbn [Editor.run foldl]. apply IH. unfold Editor.dispatch.
    destruct (Editor.crashed st); [done|]. rewrite app_render.
    by apply handle_keys_match.
  - intros clock req r m Hm Hid k n Hk. unfold Player.mergeNodes in Hk.
    pose proof (mapChoices_lookup_cases clock (Player.result_choices r) 0 m 0 k)
      as Hcases.
    destruct (Player.mapChoices clock 0 (Player.result_choices r) (m, 0%nat))
      as [chs [m1 k1]]. cbn [fst snd] in *.
    apply lookup_insert_Some in Hk as [[<- <-]|[_ Hk]]; [done|].
    destruct Hcases as [Hold|[c Hnew]].
    + rewrite Hold in Hk. by apply (Hm k n).
    + rewrite Hnew in Hk. by injection Hk as <-.
Qed.

Lemma nodes_stay_under_their_ids_witness :
  keys_match (doc_nodes abc_doc)
  ∧ keys_match (doc_nodes (Editor.app
      (Editor.run [Editor.AddNode 1700000000000; Editor.SaveNode]
                  (Editor.mount abc_doc)))).
Proof.
  assert (keys_match (doc_nodes (Editor.app (Editor.mount abc_doc)))) as H0
    by (unfold keys_match; apply (bool_decide_unpack _); by vm_compute).
  split; [done|].
  exact (proj1 nodes_stay_under_their_ids _ _ H0).
Defined.

(** ** Saving and the draft *)



Lemma delete_beyond {A} (l : list A) (i : nat) :
  (List.length l ≤ i)%nat → delete i l = l.
Proof.
  revert i. induction l as [|x l IH]; intros [|i] Hi; simpl in *; try done; [lia|].
  f_equal. apply IH. lia.
Qed.

(** X8. Adding and removing choices only change the draft: the document,
    the selection and the alerts are untouched until the node is saved.
    The added choice is the last one and targets the start node, and
    removing it again gives back the draft; removing at an index beyond
    the list changes nothing. *)
Theorem draft_choice_edits (st : Editor.State) (en : StoryNode) (now : N) :
  Editor.editNode st = Some en →
  let st1 := Editor.handleAddChoice now st in
  Editor.app st1 = Editor.app st
  ∧ Editor.selectedNodeId st1 = Editor.selectedNodeId st
  ∧ (∃ en1, Editor.editNode st1 = Some en1
       ∧ choices en1 = (choices en
            ++ [mkChoice ("choice-" +:+ pretty now) "New Path"
                         (startNodeId (story (Editor.app st)))])%list)
  ∧ Editor.removeChoice (List.length (choices en)) st1 = st
  ∧ (∀ idx, (List.length (choices en) ≤ idx)%nat → Editor.removeChoice idx st = st)
  ∧ (∀ idx, Editor.app (Editor.removeChoice idx st) = Editor.app st).
Proof.
  intros Hen st1. subst st1. unfold Editor.handleAddChoice, Editor.removeChoice.
  rewrite Hen. simpl. split_and!; try done.
  - by eexists.
  - unfold Editor.setEditNode, Editor.withChoices. simpl.
    rewrite delete_middle, app_nil_r.
    destruct st, en; simpl in *. by subst.
  - intros idx Hidx. unfold Editor.setEditNode, Editor.withChoices.
    rewrite delete_beyond by done. destruct st, en; simpl in *. by subst.
Qed.

Lemma draft_choice_edits_witness :
  Editor.editNode (Editor.mount abc_doc)
    = Some (scene "A" [edge "A" "B"; edge "A" "C"])
  ∧ Editor.removeChoice 2 (Editor.handleAddChoice 1700000000000 (Editor.mount abc_doc))
    = Editor.mount abc_doc.
Proof.
  assert (Editor.editNode (Editor.mount abc_doc)
          = Some (scene "A" [edge "A" "B"; edge "A" "C"])) as H0 by (by vm_compute).
  split; [done|].
  exact (proj1 (proj2 (proj2 (proj2
           (draft_choice_edits (Editor.mount abc_doc) _ 1700000000000 H0))))).
Defined.

(** ** Deleting, composed *)

Lemma pruneChoices_comm (x y : string) (n : StoryNode) :
  Editor.pruneChoices x (Editor.pruneChoices y n)
  = Editor.pruneChoices y (Editor.pruneChoices x n).
Proof.
  unfold Editor.pruneChoices. simpl. f_equal.
  rewrite !list_filter_filter. apply list_filter_iff. intros c. tauto.
Qed.

Lemma pruneChoices_idemp (x : string) (n : StoryNode) :
  Editor.pruneChoices x (Editor.pruneChoices x n) = Editor.pruneChoices x n.
Proof.
  unfold Editor.pruneChoices. simpl. f_equal.
  rewrite list_filter_filter. apply list_filter_iff. intros c. tauto.
Qed.

Lemma deleteCascade_comm (x y : string) (m : NodeMap) :
  Editor.deleteCascade x (Editor.deleteCascade y m)
  = Editor.deleteCascade y (Editor.deleteCascade x m).
Proof.
  apply map_eq. intros k. rewrite !deleteCascade_lookup.
  repeat case_decide; try done.
  destruct (m !! k); [|done]. simpl. by rewrite pruneChoices_comm.
Qed.

Lemma deleteCascade_idemp (x : string) (m : NodeMap) :
  Editor.deleteCascade x (Editor.deleteCascade x m) = Editor.deleteCascade x m.
Proof.
  apply map_eq. intros k. rewrite !deleteCascade_lookup.
  case_decide; [done|].
  destruct (m !! k); [|done]. simpl. by rewrite pruneChoices_idemp.
Qed.

Lemma story_handleDeleteNode (c : bool) (id : string) (st : Editor.State) :
  story (Editor.app (Editor.handleDeleteNode c id st)) = story (Editor.app st).
Proof. apply (story_handle (Editor.DeleteNode c id)). Qed.

(** X9. Confirmed deletions of non-start nodes compose: deleting the same
    node twice gives the document of deleting it once, and deleting two
    nodes gives the same document in either order.  Deleting an id that is
    not a key removes no node and prunes the choices that target it. *)
Theorem deletions_compose (st : Editor.State) (x y : string) :
  x ≠ startNodeId (story (Editor.app st)) →
  y ≠ startNodeId (story (Editor.app st)) →
  let del id s := Editor.handleDeleteNode true id s in
  doc_nodes (Editor.app (del x (del x st))) = doc_nodes (Editor.app (del x st))
  ∧ doc_nodes (Editor.app (del y (del x st)))
    = doc_nodes (Editor.app (del x (del y st)))
  ∧ (doc_nodes (Editor.app st) !! x = None →
     ∀ k, doc_nodes (Editor.app (del x st)) !! k
          = (λ n, mkNode (node_id n) (title n) (content n)
                         (filter (λ c, targetNodeId c ≠ x) (choices n))
                         (isAiGenerated n) (imageUrl n))
            <$> doc_nodes (Editor.app st) !! k).
Proof.
  intros Hx Hy del. subst del. cbn beta.
  rewrite !handleDeleteNode_nodes by (by rewrite ?story_handleDeleteNode).
  split_and!.
  - apply deleteCascade_idemp.
  - apply deleteCascade_comm.
  - intros Hnone k. rewrite deleteCascade_lookup. case_decide; [|done].
    subst k. by rewrite Hnone.
Qed.

Lemma deletions_compose_witness :
  "B" ≠ startNodeId (story (Editor.app (Editor.mount abc_doc)))
  ∧ "C" ≠ startNodeId (story (Editor.app (Editor.mount abc_doc)))
  ∧ doc_nodes (Editor.app (Editor.handleDeleteNode true "C"
                 (Editor.handleDeleteNode true "B" (Editor.mount abc_doc))))
    = doc_nodes (Editor.app (Editor.handleDeleteNode true "B"
                 (Editor.handleDeleteNode true "C" (Editor.mount abc_doc)))).
Proof.
  assert ("B" ≠ startNodeId (story (Editor.app (Editor.mount abc_doc)))) as Hb by done.
  assert ("C" ≠ startNodeId (story (Editor.app (Editor.mount abc_doc)))) as Hc by done.
  split_and!; [done..|].
  exact (proj1 (proj2 (deletions_compose (Editor.mount abc_doc) "B" "C" Hb Hc))).
Defined.

Lemma linked_deleteCascade (x t : string) (m : NodeMap) :
  t ∈ linkedNodeIds_of (Editor.deleteCascade x m)
  ↔ t ≠ x ∧ ∃ k n c, k ≠ x ∧ m !! k = Some n ∧ c ∈ choices n ∧ targetNodeId c = t.
Proof.
  rewrite elem_of_linkedNodeIds_of. split.
  - intros (k & n' & c & Hk & Hc & <-). rewrite deleteCascade_lookup in Hk.
    case_decide; [done|]. destruct (m !! k) as [n|] eqn:Hn; [|done].
    injection Hk as <-. simpl in Hc. apply list_elem_of_filter in Hc as [Hne Hc].
    split; [done|]. by exists k, n, c.
  - intros (Hne & k & n & c & Hk & Hn & Hc & <-).
    exists k, (Editor.pruneChoices x n), c. split_and!; [|simpl|done].
    + rewrite deleteCascade_lookup, decide_False by done. by rewrite Hn.
    + apply list_elem_of_filter. by split.
Qed.

(** X10. Orphans after a deletion, as an editor mounted on the resulting
    document reports them: a node other than the deleted one is an orphan
    exactly when it is not the start node and no choice of a node other
    than the deleted one targets it.  So a deletion orphans precisely the
    nodes whose inbound choices all came from the deleted node. *)
Theorem orphans_after_delete (st : Editor.State) (x : string) (node : StoryNode) :
  x ≠ startNodeId (story (Editor.app st)) →
  node_id node ≠ x →
  Editor.isOrphan (Editor.mount (Editor.app (Editor.handleDeleteNode true x st))) node
    = true
  ↔ node_id node ≠ startNodeId (story (Editor.app st))
    ∧ ¬ ∃ k n c, k ≠ x ∧ doc_nodes (Editor.app st) !! k = Some n
                 ∧ c ∈ choices n ∧ targetNodeId c = node_id node.
Proof.
  intros Hx Hne.
  unfold Editor.isOrphan. cbn [Editor.mount Editor.app Editor.linkedNodeIds snd].
  rewrite story_handleDeleteNode, handleDeleteNode_nodes by done.
  rewrite andb_true_iff, negb_true_iff, bool_decide_eq_true, bool_decide_eq_false.
  rewrite linked_deleteCascade. split.
  - intros [H1 H2]. split; [done|]. intros H3. apply H2. by split.
  - intros [H1 H2]. split; [done|]. by intros [_ H3].
Qed.

Lemma orphans_after_delete_witness :
  "B" ≠ startNodeId (story (Editor.app (Editor.mount abc_doc)))
  ∧ node_id (scene "C" []) ≠ "B"
  ∧ Editor.isOrphan
      (Editor.mount (Editor.app (Editor.handleDeleteNode true "B"
                                   (Editor.mount abc_doc))))
      (scene "C" []) = false.
Proof.
  assert ("B" ≠ startNodeId (story (Editor.app (Editor.mount abc_doc)))) as Hb by done.
  assert (node_id (scene "C" []) ≠ "B") as Hc by done.
  split_and!; [done..|].
  apply not_true_is_false. intros Ho.
  apply (orphans_after_delete (Editor.mount abc_doc) "B" (scene "C" []) Hb Hc) in Ho
    as [_ Hno].
  apply Hno. exists "A", (scene "A" [edge "A" "B"; edge "A" "C"]), (edge "A" "C").
  split_and!; [done|by vm_compute| |done]. right. by left.
Defined.

(** ** Choice ids of a merge *)

Lemma printed_at_inj (i j : nat) (s : string) :
  printed_at i s → printed_at j s → i = j.
Proof.
  intros [t1 [H1|H1]] [t2 [H2|H2]]; rewrite H1 in H2; injection H2 as H2;
    try discriminate;
    apply split_at_dash in H2 as [_ H2]; try apply pretty_N_no_dash;
    by apply (inj pretty) in H2.
Qed.

Lemma expandChoice_printed (clock : nat → N) (idx : nat) (c : Player.AiChoice)
    (st : NodeMap * nat) :
  printed_at idx (choice_id (Player.expandChoice clock idx c st).1).
Proof.
  destruct st as [m k]. unfold Player.expandChoice.
  destruct (Player.converges m c); simpl.
  - exists (clock k). by left.
  - exists (clock (S k)). by right.
Qed.

Lemma mapChoices_ids (clock : nat → N) (cs : list Player.AiChoice) (idx : nat)
    (st : NodeMap * nat) :
  Forall (λ ch, ∃ j, (idx ≤ j)%nat ∧ printed_at j (choice_id ch))
         (Player.mapChoices clock idx cs st).1
  ∧ NoDup (choice_id <$> (Player.mapChoices clock idx cs st).1).
Proof.
  revert idx st. induction cs as [|c cs IH]; intros idx st.
  - split; [by apply Forall_nil|by apply NoDup_nil].
  - rewrite mapChoices_cons; cbn zeta; cbn [fst snd].
    pose proof (expandChoice_printed clock idx c st) as Hhd.
    destruct (IH (S idx) (Player.expandChoice clock idx c st).2) as [Hall Hnd].
    split.
    + apply Forall_cons. split; [by exists idx|].
      eapply Forall_impl; [exact Hall|]. simpl. intros ch (j & Hj & Hp).
      exists j. split; [lia|done].
    + rewrite fmap_cons. apply NoDup_cons. split; [|done].
      intros (ch & Heq & Hin)%list_elem_of_fmap.
      destruct (proj1 (Forall_forall _ _) Hall ch Hin) as (j & Hj & Hp).
      rewrite Heq in Hhd. pose proof (printed_at_inj idx j _ Hhd Hp). lia.
Qed.

(** X11. The choices that one merge builds have pairwise distinct ids,
    whatever the clock reads: the node written back by the merge never
    holds two choices with one id. *)
Theorem merged_choice_ids_distinct (clock : nat → N) (req : Player.Request)
    (r : Player.AiResult) (m : NodeMap) (node : StoryNode) :
  Player.mergeNodes clock req r m !! Player.req_currentNodeId req = Some node →
  NoDup (choice_id <$> choices node).
Proof.
  rewrite mergeNodes_current. intros [= <-]. simpl.
  apply (mapChoices_ids clock (Player.result_choices r) 0 (m, 0%nat)).
Qed.

Lemma merged_choice_ids_distinct_witness :
  Player.mergeNodes sample_clock req_C sample_result (doc_nodes abc_doc) !! "C"
    = Some (mkNode "C" "C" "The hall opens."
              [mkChoice "ai-choice-1700000000001-0" "Enter" "ai-node-1700000000000-0";
               mkChoice "ai-link-1700000000002-1" "Return" "A"] None None)
  ∧ NoDup ["ai-choice-1700000000001-0"; "ai-link-1700000000002-1"].
Proof.
  assert (Player.mergeNodes sample_clock req_C sample_result (doc_nodes abc_doc) !! "C"
    = Some (mkNode "C" "C" "The hall opens."
              [mkChoice "ai-choice-1700000000001-0" "Enter" "ai-node-1700000000000-0";
               mkChoice "ai-link-1700000000002-1" "Return" "A"] None None)) as H0
    by (by vm_compute).
  split; [done|].
  exact (merged_choice_ids_distinct sample_clock req_C sample_result _ _ H0).
Defined.

(** ** The lists of the editor *)

Section ListFacts.

Variable toLowerCase : string → string.
Variable trim : string → string.

(** X12. Searching only narrows: the sidebar list is a sublist of all
    nodes, in their order, and the inbound list with a search term is a
    sublist of the inbound list without one; a search that trims to the
    empty string shows everything.  Without a selection, or with the
    empty id selected, the inbound list is empty. *)
Theorem search_only_narrows (allNodes : list StoryNode) (search : string) :
  EditorLists.filteredNodes toLowerCase trim allNodes search `sublist_of` allNodes
  ∧ (trim search = "" →
     EditorLists.filteredNodes toLowerCase trim allNodes search = allNodes)
  ∧ (∀ sel blank, trim blank = "" →
       EditorLists.inboundLinks toLowerCase trim allNodes sel search
       `sublist_of` EditorLists.inboundLinks toLowerCase trim allNodes sel blank)
  ∧ EditorLists.inboundLinks toLowerCase trim allNodes None search = []
  ∧ EditorLists.inboundLinks toLowerCase trim allNodes (Some "") search = [].
Proof.
  split_and!.
  - unfold EditorLists.filteredNodes. case_bool_decide; [done|].
    apply sublist_filter.
  - intros Hb. unfold EditorLists.filteredNodes. by rewrite bool_decide_eq_true_2.
  - intros [sel|] blank Hb; [|done]. unfold EditorLists.inboundLinks.
    case_bool_decide; [done|]. rewrite (bool_decide_eq_true_2 _ Hb).
    case_bool_decide; [done|]. apply sublist_filter.
  - done.
  - done.
Qed.

(** X13. The inbound list and the orphan badge agree.  When [allNodes]
    lists the stored nodes, a non-empty id [t] has an empty inbound list
    (no search term) exactly when no stored choice targets it; so in an
    editor just mounted, a node with a non-empty id is reported as an
    orphan exactly when it is not the start node and its inbound list is
    empty. *)
Theorem inbound_list_and_orphans (a : App) (allNodes : list StoryNode)
    (blank : string) (node : StoryNode) :
  (∀ n, n ∈ allNodes ↔ ∃ k, doc_nodes a !! k = Some n) →
  trim blank = "" →
  node_id node ≠ "" →
  (EditorLists.inboundLinks toLowerCase trim allNodes (Some (node_id node)) blank = []
   ↔ node_id node ∉ linkedNodeIds_of (doc_nodes a))
  ∧ (Editor.isOrphan (Editor.mount a) node = true
     ↔ node_id node ≠ startNodeId (story a)
       ∧ EditorLists.inboundLinks toLowerCase trim allNodes
           (Some (node_id node)) blank = []).
Proof.
  intros Hall Hb Hne.
  assert (EditorLists.inboundLinks toLowerCase trim allNodes
            (Some (node_id node)) blank = []
          ↔ node_id node ∉ linkedNodeIds_of (doc_nodes a)) as Hiff.
  { unfold EditorLists.inboundLinks.
    rewrite bool_decide_eq_false_2, (bool_decide_eq_true_2 _ Hb) by done.
    rewrite elem_of_linkedNodeIds_of. split.
    - intros Hnil (k & n & c & Hk & Hc & Ht).
      assert (n ∈ filter (EditorLists.targets (node_id node)) allNodes) as Hin.
      { apply list_elem_of_filter. split.
        - apply Exists_exists. by exists c.
        - apply Hall. by exists k. }
      rewrite Hnil in Hin. by apply elem_of_nil in Hin.
    - intros Hno.
      destruct (filter (EditorLists.targets (node_id node)) allNodes)
        as [|n l] eqn:Hf; [done|].
      assert (n ∈ filter (EditorLists.targets (node_id node)) allNodes) as Hin
        by (rewrite Hf; by left).
      apply list_elem_of_filter in Hin as [Ht Hin].
      apply Exists_exists in Ht as (c & Hc & Ht).
      apply Hall in Hin as [k Hk]. destruct Hno. by exists k, n, c. }
  split; [done|].
  rewrite isOrphan_mount_iff, Hiff. by rewrite elem_of_linkedNodeIds_of.
Qed.

End ListFacts.

Lemma inbound_list_and_orphans_witness :
  (∀ n, n ∈ [scene "A" [edge "A" "B"]; scene "B" []]
        ↔ ∃ k, doc_nodes ab_doc !! k = Some n)
  ∧ (EditorLists.inboundLinks (λ s, s) (λ s, s)
       [scene "A" [edge "A" "B"]; scene "B" []] (Some "A") "" = []
     ↔ "A" ∉ linkedNodeIds_of (doc_nodes ab_doc)).
Proof.
  assert (∀ n, n ∈ [scene "A" [edge "A" "B"]; scene "B" []]
               ↔ ∃ k, doc_nodes ab_doc !! k = Some n) as Hall.
  { intros n. split.
    - intros [->|[->|[]%elem_of_nil]%elem_of_cons]%elem_of_cons.
      + by exists "A".
      + by exists "B".
    - intros [k Hk].
      destruct (decide (k = "A")) as [->|Ha];
        [vm_compute in Hk; injection Hk as <-; by left|].
      destruct (decide (k = "B")) as [->|Hb];
        [vm_compute in Hk; injection Hk as <-; right; by left|].
      exfalso. unfold doc_nodes, ab_doc, document, deref in Hk. simpl in Hk.
      rewrite lookup_singleton_eq in Hk. simpl in Hk.
      rewrite !lookup_insert_ne in Hk by done. by rewrite lookup_empty in Hk. }
  split; [done|].
  exact (proj1 (inbound_list_and_orphans (λ s, s) (λ s, s) ab_doc
           _ "" (scene "A" [edge "A" "B"]) Hall eq_refl ltac:(done))).
Defined.

Lemma search_only_narrows_witness :
  (λ s : string, s) "" = ""
  ∧ EditorLists.filteredNodes (λ s, s) (λ s, s)
      [scene "A" [edge "A" "B"]; scene "B" []] ""
    = [scene "A" [edge "A" "B"]; scene "B" []].
Proof.
  split; [done|].
  exact (proj1 (proj2 (search_only_narrows (λ s, s) (λ s, s)
                         [scene "A" [edge "A" "B"]; scene "B" []] "")) eq_refl).
Defined.

(** ** Import, both paths *)



Lemma normalizeImage_fields (resize : string → string) (n : StoryNode) :
  let n' := ImportFlow.normalizeImage resize n in
  node_id n' = node_id n ∧ title n' = title n ∧ content n' = content n
  ∧ choices n' = choices n ∧ isAiGenerated n' = isAiGenerated n
  ∧ (imageUrl n' = imageUrl n
     ∨ ∃ url, imageUrl n = Some url ∧ String.prefix "data:image" url = true
              ∧ imageUrl n' = Some (resize url)).
Proof.
  unfold ImportFlow.normalizeImage. destruct (imageUrl n) as [url|] eqn:Hurl.
  - destruct (bool_decide (url ≠ "") && String.prefix "data:image" url) eqn:Hb.
    + apply andb_true_iff in Hb as [_ Hp]. simpl. split_and!; try done.
      right. by exists url.
    + split_and!; try done. by left.
  - split_and!; try done. by left.
Qed.

(** X15. What the welcome screen's import changes in the candidate's
    nodes is the embedded image of a node and nothing else: the keys are
    the same, every node keeps its id, title, content, choices and
    provenance flag, and a node without media, or whose media is not an
    embedded image (a video, a remote address), is left as it is.  So the
    set of link targets, and with it every orphan and every dangling
    choice, is the one of the file. *)
Theorem import_normalisation_keeps_graph (resize : string → string) (m : NodeMap) :
  let m' := ImportFlow.normalizeImage resize <$> m in
  dom m' = dom m
  ∧ (∀ k n, m !! k = Some n →
       ∃ n', m' !! k = Some n' ∧ node_id n' = node_id n ∧ title n' = title n
             ∧ content n' = content n ∧ choices n' = choices n
             ∧ isAiGenerated n' = isAiGenerated n
             ∧ (∀ url, imageUrl n = Some url → String.prefix "data:image" url = false →
                  n' = n)
             ∧ (imageUrl n = None → n' = n))
  ∧ linkedNodeIds_of m' = linkedNodeIds_of m
  ∧ (no_dangling m ↔ no_dangling m').
Proof.
  intros m'. subst m'.
  assert (∀ k n', (ImportFlow.normalizeImage resize <$> m) !! k = Some n'
                  → ∃ n, m !! k = Some n ∧ choices n' = choices n) as Hback.
  { intros k n'. rewrite lookup_fmap. destruct (m !! k) as [n|]; [|done].
    intros [= <-]. exists n. split; [done|].
    apply (normalizeImage_fields resize n). }
  assert (∀ k n, m !! k = Some n
                 → ∃ n', (ImportFlow.normalizeImage resize <$> m) !! k = Some n'
                         ∧ choices n' = choices n) as Hfwd.
  { intros k n Hk. exists (ImportFlow.normalizeImage resize n).
    rewrite lookup_fmap, Hk. split; [done|]. apply (normalizeImage_fields resize n). }
  split_and!.
  - apply dom_fmap_L.
  - intros k n Hk. exists (ImportFlow.normalizeImage resize n).
    rewrite lookup_fmap, Hk.
    destruct (normalizeImage_fields resize n) as (H1 & H2 & H3 & H4 & H5 & _).
    split_and!; try done.
    + intros url Hurl Hp. unfold ImportFlow.normalizeImage. rewrite Hurl, Hp.
      by rewrite andb_false_r.
    + intros Hnone. unfold ImportFlow.normalizeImage. by rewrite Hnone.
  - apply set_eq. intros t. rewrite !elem_of_linkedNodeIds_of. split.
    + intros (k & n' & c & Hk & Hc & Ht). destruct (Hback k n' Hk) as (n & Hn & Hch).
      exists k, n, c. by rewrite <-Hch.
    + intros (k & n & c & Hk & Hc & Ht). destruct (Hfwd k n Hk) as (n' & Hn & Hch).
      exists k, n', c. by rewrite Hch.
  - rewrite !no_dangling_iff. split.
    + intros Hnd k n' c Hk Hc. destruct (Hback k n' Hk) as (n & Hn & Hch).
      rewrite Hch in Hc. destruct (Hnd k n c Hn Hc) as [n2 Hn2].
      destruct (Hfwd _ _ Hn2) as (n2' & -> & _). by eexists.
    + intros Hnd k n c Hk Hc. destruct (Hfwd k n Hk) as (n' & Hn & Hch).
      rewrite <-Hch in Hc. destruct (Hnd k n' c Hn Hc) as [n2' Hn2].
      destruct (Hback _ _ Hn2) as (n2 & -> & _). by eexists.
Qed.

Lemma import_normalisation_keeps_graph_witness :
  doc_nodes abc_doc !! "A" = Some (scene "A" [edge "A" "B"; edge "A" "C"])
  ∧ ∃ n', (ImportFlow.normalizeImage (λ url, url) <$> doc_nodes abc_doc) !! "A"
          = Some n' ∧ node_id n' = "A".
Proof.
  assert (doc_nodes abc_doc !! "A" = Some (scene "A" [edge "A" "B"; edge "A" "C"]))
    as Ha by (by vm_compute).
  split; [done|].
  destruct (proj1 (proj2 (import_normalisation_keeps_graph (λ url, url)
                            (doc_nodes abc_doc))) "A" _ Ha) as (n' & Hn & Hid & _).
  by exists n'.
Defined.

Lemma settles_iff (loads : string → bool) (m : NodeMap) :
  ImportFlow.settles loads m = true
  ↔ ∀ k n url, m !! k = Some n → imageUrl n = Some url →
               String.prefix "data:image" url = true → loads url = true.
Proof.
  unfold ImportFlow.settles. rewrite bool_decide_eq_true. unfold map_Forall.
  split.
  - intros Hall k n url Hk Hurl Hp. specialize (Hall k n Hk).
    unfold ImportFlow.awaited in Hall. rewrite Hurl, Hp in Hall.
    destruct url; [discriminate Hp|]. by rewrite bool_decide_eq_true_2 in Hall.
  - intros Hall k n Hk. unfold ImportFlow.awaited.
    destruct (imageUrl n) as [url|] eqn:Hurl; [|done].
    destruct (bool_decide (url ≠ "") && String.prefix "data:image" url) eqn:Hb;
      [|done].
    apply andb_true_iff in Hb as [_ Hp]. simpl. by apply (Hall k n url).
Qed.

(** X16. The welcome screen's import, for a file that parses to a
    document of the declared type.  It never changes the document before
    the dialog is answered.  A file that does not parse or has no [nodes]
    is reported and keeps an import that is already pending.  A file with
    [nodes] becomes the pending import, with its embedded images resized
    and without a report, when every embedded image of its scenes loads;
    when one does not load, the handler never gets past it: nothing
    becomes pending and nothing is reported.  Answering the dialog makes
    the pending candidate the document and clears it, so answering again,
    or answering with nothing pending, changes nothing. *)
Theorem welcome_import_outcome (resize : string → string) (loads : string → bool)
    (parsed : option ImportFlow.Candidate) (st : ImportFlow.State) :
  let st1 := ImportFlow.app_handleImportFile resize loads parsed st in
  ImportFlow.doc st1 = ImportFlow.doc st
  ∧ (∀ c m, parsed = Some c → ImportFlow.cand_nodes c = Some m →
       ((∀ k n url, m !! k = Some n → imageUrl n = Some url →
                    String.prefix "data:image" url = true → loads url = true) →
        ImportFlow.pendingImport st1
        = Some (ImportFlow.mkCandidate (ImportFlow.cand_id c) (ImportFlow.cand_name c)
                  (Some (ImportFlow.normalizeImage resize <$> m))
                  (ImportFlow.cand_startNodeId c) (ImportFlow.cand_imageStyle c))
        ∧ ImportFlow.alerts st1 = ImportFlow.alerts st)
       ∧ ((∃ k n url, m !! k = Some n ∧ imageUrl n = Some url
                      ∧ String.prefix "data:image" url = true ∧ loads url = false) →
          st1 = st))
  ∧ (¬ (∃ c, parsed = Some c ∧ is_Some (ImportFlow.cand_nodes c))
     → ImportFlow.pendingImport st1 = ImportFlow.pendingImport st
       ∧ ImportFlow.alerts st1
         = (ImportFlow.alerts st ++ ["Corrupted saga file."])%list)
  ∧ ImportFlow.finalizeImport (ImportFlow.finalizeImport st1)
    = ImportFlow.finalizeImport st1
  ∧ (ImportFlow.pendingImport st = None → ImportFlow.finalizeImport st = st)
  ∧ (∀ c, ImportFlow.pendingImport st = Some c →
       ImportFlow.doc (ImportFlow.finalizeImport st) = c
       ∧ ImportFlow.pendingImport (ImportFlow.finalizeImport st) = None).
Proof.
  intros st1. subst st1. unfold ImportFlow.app_handleImportFile.
  split_and!.
  - destruct parsed as [c|]; [|done].
    destruct (ImportFlow.cand_nodes c) as [m|]; [|done].
    by destruct (ImportFlow.settles loads m).
  - intros c m -> Hm. rewrite Hm. split.
    + intros Hall. apply settles_iff in Hall. by rewrite Hall.
    + intros (k & n & url & Hk & Hurl & Hp & Hl).
      destruct (ImportFlow.settles loads m) eqn:Hs; [|done].
      rewrite settles_iff in Hs. rewrite (Hs k n url Hk Hurl Hp) in Hl.
      discriminate Hl.
  - intros Hno. destruct parsed as [c|]; [|done].
    destruct (ImportFlow.cand_nodes c) as [m|] eqn:Hm; [|done].
    destruct Hno. exists c. split; [done|]. by eexists.
  - unfold ImportFlow.finalizeImport.
    destruct parsed as [c|]; [destruct (ImportFlow.cand_nodes c) as [m|]|];
      simpl; try (by destruct (ImportFlow.pendingImport st)).
    destruct (ImportFlow.settles loads m); simpl; [done|].
    destruct (ImportFlow.pendingImport st) eqn:Hp; simpl; [done|].
    by rewrite Hp.
  - intros Hnone. unfold ImportFlow.finalizeImport. by rewrite Hnone.
  - intros c Hc. unfold ImportFlow.finalizeImport. by rewrite Hc.
Qed.

Lemma welcome_import_outcome_witness :
  let st := ImportFlow.mkState no_start_candidate None [] in
  ImportFlow.cand_nodes image_candidate
  = Some {[ "n1" := mkNode "n1" "n1" "..." [] None
                           (Some "data:image/png;base64,AAAA") ]}
  ∧ ImportFlow.app_handleImportFile (λ url, url) (λ _, false)
      (Some image_candidate) st = st
  ∧ ImportFlow.pendingImport
      (ImportFlow.app_handleImportFile (λ url, url) (λ _, true)
         (Some image_candidate) st)
    = Some image_candidate.
Proof.
  intros st. split; [done|]. split.
  - refine (proj2 (proj1 (proj2 (welcome_import_outcome (λ url, url) (λ _, false)
              (Some image_candidate) st)) image_candidate _ eq_refl eq_refl) _).
    exists "n1", (mkNode "n1" "n1" "..." [] None (Some "data:image/png;base64,AAAA")),
           "data:image/png;base64,AAAA".
    split_and!; by vm_compute.
  - by vm_compute.
Defined.

(** ** The graph view *)

Section LinkGroups.

Import Visualizer.

Lemma group_pushGroup (gs : list (string * list nat)) (key key' : string) (i : nat) :
  group (pushGroup gs key i) key'
  = if decide (key = key') then (group gs key ++ [i])%list else group gs key'.
Proof.
  induction gs as [|[k g] gs IH]; simpl.
  - repeat case_decide; done.
  - destruct (decide (k = key)) as [->|Hk]; simpl.
    + repeat case_decide; done.
    + rewrite IH. repeat case_decide; congruence.
Qed.

Lemma keys_pushGroup (gs : list (string * list nat)) (key : string) (i : nat) :
  NoDup gs.*1 → NoDup (pushGroup gs key i).*1
  ∧ ∀ k, k ∈ (pushGroup gs key i).*1 ↔ k = key ∨ k ∈ gs.*1.
Proof.
  induction gs as [|[k g] gs IH]; simpl.
  - intros _. split; [apply NoDup_singleton|]. intros k'.
    rewrite list_elem_of_singleton, elem_of_nil. tauto.
  - intros [Hk Hnd]%NoDup_cons. destruct (decide (k = key)) as [->|Hne]; simpl.
    + split; [by apply NoDup_cons|]. intros k'. rewrite elem_of_cons. tauto.
    + destruct (IH Hnd) as [IH1 IH2]. split.
      * apply NoDup_cons. split; [|done]. rewrite IH2. intros [?|?]; done.
      * intros k'. rewrite !elem_of_cons, IH2. tauto.
Qed.

Lemma group_entry (gs : list (string * list nat)) (k : string) (g : list nat) :
  NoDup gs.*1 → (k, g) ∈ gs → group gs k = g.
Proof.
  induction gs as [|[k' g'] gs IH]; simpl; [by intros _ ?%elem_of_nil|].
  intros [Hk Hnd]%NoDup_cons [[= -> ->]|Hin]%elem_of_cons.
  - by rewrite decide_True.
  - rewrite decide_False; [by apply IH|]. intros ->. apply Hk.
    apply list_elem_of_fmap. by exists (k, g).
Qed.

Lemma group_nonempty (gs : list (string * list nat)) (k : string) :
  group gs k ≠ [] → (k, group gs k) ∈ gs.
Proof.
  induction gs as [|[k' g'] gs IH]; simpl; [done|].
  destruct (decide (k' = k)) as [->|Hne]; [by left|].
  intros H. right. by apply IH.
Qed.

Lemma positions_app (key : string) (off : nat) (l1 l2 : list GraphLink) :
  positions key off (l1 ++ l2)
  = (positions key off l1 ++ positions key (off + List.length l1) l2)%list.
Proof.
  revert off. induction l1 as [|x l1 IH]; intros off; simpl.
  - by rewrite Nat.add_0_r.
  - rewrite IH, <-app_assoc. by replace (S off + List.length l1)%nat
      with (off + S (List.length l1))%nat by lia.
Qed.

Lemma positions_length (key : string) (off : nat) (l : list GraphLink) :
  List.length (positions key off l)
  = List.length (filter (λ r, linkKey r = key) l).
Proof.
  revert off. induction l as [|x l IH]; intros off; simpl; [done|].
  rewrite filter_cons, length_app, IH. by case_decide.
Qed.

Lemma elem_of_positions (key : string) (off j : nat) (l : list GraphLink) :
  j ∈ positions key off l
  ↔ (off ≤ j)%nat ∧ ∃ r, l !! (j - off)%nat = Some r ∧ linkKey r = key.
Proof.
  revert off. induction l as [|x l IH]; intros off; simpl.
  - rewrite elem_of_nil. split; [done|]. by intros (_ & r & ? & _).
  - rewrite elem_of_app, IH. split.
    + intros [Hin|(Hle & r & Hr & Hk)].
      * case_decide; [|by apply elem_of_nil in Hin].
        apply list_elem_of_singleton in Hin as ->. split; [lia|].
        exists x. by rewrite Nat.sub_diag.
      * split; [lia|]. exists r. split; [|done].
        by replace (j - off)%nat with (S (j - S off))%nat by lia.
    + intros (Hle & r & Hr & Hk). destruct (decide (j = off)) as [->|Hne].
      * left. rewrite Nat.sub_diag in Hr. injection Hr as ->.
        rewrite decide_True by done. by left.
      * right. split; [lia|]. exists r. split; [|done].
        by replace (j - off)%nat with (S (j - S off))%nat in Hr by lia.
Qed.

(** The first pass: every link gets the number of earlier links with its
    key, and the groups hold the positions by key. *)
Lemma indexLinks_spec (rest pre : list GraphLink) (gs : list (string * list nat)) :
  NoDup gs.*1 → (∀ key, group gs key = positions key 0 pre) →
  let r := indexLinks (List.length pre) rest gs in
  NoDup r.2.*1
  ∧ (∀ key, group r.2 key = positions key 0 (pre ++ rest))
  ∧ List.length r.1 = List.length rest
  ∧ ∀ j x, rest !! j = Some x →
      r.1 !! j = Some (setIndex (List.length (positions (linkKey x) 0 (pre ++ take j rest))) x).
Proof.
  revert pre gs. induction rest as [|x rest IH]; intros pre gs Hnd Hgs; simpl.
  - rewrite app_nil_r. split_and!; try done.
  - destruct (keys_pushGroup gs (linkKey x) (List.length pre) Hnd) as [Hnd' _].
    assert (∀ key, group (pushGroup gs (linkKey x) (List.length pre)) key
                   = positions key 0 (pre ++ [x])) as Hgs'.
    { intros key. rewrite group_pushGroup, positions_app, !Hgs. simpl.
      case_decide; subst; by rewrite ?app_nil_r. }
    specialize (IH (pre ++ [x])%list _ Hnd' Hgs').
    rewrite length_app in IH. simpl in IH.
    replace (List.length pre + 1)%nat with (S (List.length pre)) in IH by lia.
    destruct (indexLinks (S (List.length pre)) rest
                (pushGroup gs (linkKey x) (List.length pre))) as [ls gs'].
    simpl in *. destruct IH as (H1 & H2 & H3 & H4).
    split_and!.
    + done.
    + intros key. rewrite H2. by rewrite <-app_assoc.
    + by rewrite H3.
    + intros [|j] y Hy; simpl in *.
      * injection Hy as <-. by rewrite app_nil_r, Hgs.
      * rewrite (H4 j y Hy). by rewrite <-app_assoc.
Qed.

Lemma foldl_alter_lookup (f : nat → GraphLink → GraphLink) (J : list nat)
    (ls : list GraphLink) (i : nat) :
  (∀ j x, f j (f j x) = f j x) →
  foldl (λ ls j, alter (f j) j ls) ls J !! i
  = if decide (i ∈ J) then f i <$> ls !! i else ls !! i.
Proof.
  intros Hidem. revert ls. induction J as [|j J IH]; intros ls; simpl.
  - done.
  - rewrite IH. destruct (decide (i = j)) as [->|Hne].
    + rewrite list_lookup_alter_eq.
      destruct (decide (j ∈ j :: J)) as [_|Hn]; [|destruct Hn; by left].
      case_decide; [|done]. destruct (ls !! j); simpl; [|done]. by rewrite Hidem.
    + rewrite list_lookup_alter_ne by done.
      destruct (decide (i ∈ J)) as [Hin|Hnin].
      * destruct (decide (i ∈ j :: J)) as [_|Hn]; [done|]. destruct Hn. by right.
      * destruct (decide (i ∈ j :: J)) as [Hn|_]; [|done].
        apply elem_of_cons in Hn as [?|?]; done.
Qed.

Lemma foldl_alter_ext (f : nat → GraphLink → GraphLink) (t : nat) (g : list nat)
    (ls : list GraphLink) :
  (∀ j, j ∈ g → f j = setTotal t) →
  foldl (λ ls j, alter (setTotal t) j ls) ls g
  = foldl (λ ls j, alter (f j) j ls) ls g.
Proof.
  revert ls. induction g as [|j g IH]; intros ls Hf; simpl; [done|].
  rewrite (Hf j) by (by left). apply IH. intros j' Hj'. apply Hf. by right.
Qed.

Lemma totalLinks_flat (f : nat → GraphLink → GraphLink)
    (gs : list (string * list nat)) (ls : list GraphLink) :
  (∀ e j, e ∈ gs → j ∈ e.2 → f j = setTotal (List.length e.2)) →
  totalLinks ls gs = foldl (λ ls j, alter (f j) j ls) ls (mjoin gs.*2).
Proof.
  unfold totalLinks. revert ls. induction gs as [|e gs IH]; intros ls Hf; simpl; [done|].
  rewrite foldl_app. rewrite (foldl_alter_ext f).
  - apply IH. intros e' j He' Hj. apply Hf; [by right|done].
  - intros j Hj. apply Hf; [by left|done].
Qed.

(** What the memo computes for the link at position [i]. *)
Lemma graphLinks_spec (values : list StoryNode) (i : nat) (r : GraphLink) :
  rawLinks values !! i = Some r →
  graphLinks values !! i
  = Some (mkLink (source r) (target r) (label r)
            (Some (List.length (filter (λ x, linkKey x = linkKey r)
                                       (take i (rawLinks values)))))
            (Some (List.length (filter (λ x, linkKey x = linkKey r)
                                       (rawLinks values))))).
Proof.
  intros Hr. unfold graphLinks. set (raw := rawLinks values) in *.
  destruct (indexLinks_spec raw [] [] (NoDup_nil_2) (λ _, eq_refl))
    as (Hnd & Hgs & Hlen & Hidx).
  simpl in *. destruct (indexLinks 0 raw []) as [ls gs]. simpl in *.
  set (f := λ (j : nat), match raw !! j with
                         | Some x => setTotal (List.length (positions (linkKey x) 0 raw))
                         | None => λ l, l
                         end).
  assert (∀ e j, e ∈ gs → j ∈ e.2 → f j = setTotal (List.length e.2)) as Hf.
  { intros [k g] j He Hj. simpl in *.
    pose proof (group_entry gs k g Hnd He) as Hg. rewrite Hgs in Hg. subst g.
    apply elem_of_positions in Hj as (_ & x & Hx & Hk). rewrite Nat.sub_0_r in Hx.
    unfold f. by rewrite Hx, Hk. }
  rewrite (totalLinks_flat f gs ls Hf).
  rewrite foldl_alter_lookup.
  2:{ intros j x. unfold f. by destruct (raw !! j). }
  assert (i ∈ mjoin gs.*2) as Hin.
  { apply list_elem_of_join. exists (group gs (linkKey r)).
    assert (i ∈ group gs (linkKey r)) as Hi.
    { rewrite Hgs. apply elem_of_positions. split; [lia|]. exists r.
      by rewrite Nat.sub_0_r. }
    split; [done|]. apply list_elem_of_fmap. exists (linkKey r, group gs (linkKey r)).
    split; [done|]. apply group_nonempty. intros Hnil. rewrite Hnil in Hi.
    by apply elem_of_nil in Hi. }
  rewrite decide_True by done. rewrite (Hidx i r Hr). simpl.
  unfold f. rewrite Hr. unfold setTotal, setIndex. simpl.
  rewrite !positions_length. by destruct r.
Qed.

End LinkGroups.

Section GraphFacts.

Import Visualizer.

Lemma totalLinks_length (gs : list (string * list nat)) (ls : list GraphLink) :
  List.length (totalLinks ls gs) = List.length ls.
Proof.
  unfold totalLinks. revert ls. induction gs as [|e gs IH]; intros ls; simpl; [done|].
  rewrite IH. generalize (List.length e.2). intros t.
  generalize e.2. intros g. revert ls. induction g as [|j g IHg]; intros ls; simpl; [done|].
  by rewrite IHg, length_alter.
Qed.

Lemma rawLinks_length (values : list StoryNode) :
  List.length (rawLinks values)
  = sum_list ((λ n, List.length (choices n)) <$> values).
Proof.
  unfold rawLinks. induction values as [|n values IH]; [done|].
  rewrite bind_cons, fmap_cons, length_app, length_fmap. simpl. by rewrite IH.
Qed.

Lemma filter_take_lt {A} (P : A → Prop) `{∀ x, Decision (P x)} (l : list A)
    (i : nat) (x : A) :
  l !! i = Some x → P x →
  (List.length (filter P (take i l)) < List.length (filter P l))%nat.
Proof.
  intros Hi Hx. rewrite <-(take_drop_middle l i x Hi) at 2.
  rewrite filter_app, filter_cons_True by done. rewrite length_app. simpl. lia.
Qed.

(** X17. The graph view has one link per choice, in the order of the
    nodes and of their choices.  Each link keeps the owner, the target and
    the text of its choice; its [indexInGroup] is the number of earlier
    links with the same group key and its [totalInGroup] the number of all
    links with that key.  So the index is below the total, and within a
    group the indices grow with the position: no two links of a group
    share an index. *)
Theorem link_groups_numbered (values : list StoryNode) :
  List.length (graphLinks values)
    = sum_list ((λ n, List.length (choices n)) <$> values)
  ∧ (∀ i r, rawLinks values !! i = Some r →
       ∃ l idx tot,
         graphLinks values !! i = Some l
         ∧ source l = source r ∧ target l = target r ∧ label l = label r
         ∧ indexInGroup l = Some idx ∧ totalInGroup l = Some tot
         ∧ idx = List.length (filter (λ x, linkKey x = linkKey r)
                                     (take i (rawLinks values)))
         ∧ tot = List.length (filter (λ x, linkKey x = linkKey r) (rawLinks values))
         ∧ (idx < tot)%nat)
  ∧ (∀ i j li lj, (i < j)%nat →
       graphLinks values !! i = Some li → graphLinks values !! j = Some lj →
       linkKey li = linkKey lj →
       ∃ a b, indexInGroup li = Some a ∧ indexInGroup lj = Some b ∧ (a < b)%nat).
Proof.
  assert (List.length (graphLinks values) = List.length (rawLinks values)) as Hlen.
  { unfold graphLinks.
    destruct (indexLinks_spec (rawLinks values) [] [] (NoDup_nil_2) (λ _, eq_refl))
      as (_ & _ & Hl & _). simpl in Hl.
    destruct (indexLinks 0 (rawLinks values) []) as [ls gs]. simpl in *.
    by rewrite totalLinks_length. }
  split_and!.
  - by rewrite Hlen, rawLinks_length.
  - intros i r Hr. eexists _, _, _. rewrite (graphLinks_spec values i r Hr).
    split_and!; try done. simpl. by apply (filter_take_lt _ _ i r).
  - intros i j li lj Hij Hi Hj Hkey.
    assert (is_Some (rawLinks values !! i)) as [ri Hri].
    { apply lookup_lt_is_Some. rewrite <-Hlen. by apply lookup_lt_Some in Hi. }
    assert (is_Some (rawLinks values !! j)) as [rj Hrj].
    { apply lookup_lt_is_Some. rewrite <-Hlen. by apply lookup_lt_Some in Hj. }
    rewrite (graphLinks_spec values i ri Hri) in Hi.
    rewrite (graphLinks_spec values j rj Hrj) in Hj.
    injection Hi as <-. injection Hj as <-. unfold linkKey in Hkey. simpl in Hkey.
    eexists _, _. split_and!; [done..|].
    fold (linkKey ri) in Hkey. fold (linkKey rj) in Hkey. rewrite <-Hkey.
    assert (take i (rawLinks values) = take i (take j (rawLinks values))) as ->
      by (rewrite take_take; f_equal; lia).
    apply (filter_take_lt _ _ i ri); [|done].
    by rewrite lookup_take_lt.
Qed.

Lemma link_groups_numbered_witness :
  rawLinks [scene "A" [edge "A" "B"; edge "A" "B"]; scene "B" [edge "B" "A"]] !! 2%nat
    = Some (mkLink "B" "A" "to A" None None)
  ∧ graphLinks [scene "A" [edge "A" "B"; edge "A" "B"]; scene "B" [edge "B" "A"]]
      !! 2%nat
    = Some (mkLink "B" "A" "to A" (Some 2%nat) (Some 3%nat)).
Proof.
  assert (rawLinks [scene "A" [edge "A" "B"; edge "A" "B"]; scene "B" [edge "B" "A"]]
            !! 2%nat = Some (mkLink "B" "A" "to A" None None)) as Hr by done.
  split; [done|].
  destruct (proj1 (proj2 (link_groups_numbered _)) _ _ Hr)
    as (l & idx & tot & Hl & _). rewrite Hl. by vm_compute in Hl |- *.
Defined.

Lemma groupKey_sym (s t : string) : groupKey s t = groupKey t s.
Proof.
  unfold groupKey, String.ltb. rewrite (String.compare_antisym s t).
  destruct (String.compare t s) eqn:Hc; simpl; try done.
  by apply String.compare_eq_iff in Hc as ->.
Qed.

(** X18. The group key does not depend on the direction: a choice from
    [s] to [t] and one from [t] to [s] fall in one group, so in the graph
    view they carry the same total and different indices (they are drawn
    as distinct curves).  The key of a self-loop is the id twice.  The key
    joins the two ids with ["-"], so ids that contain ["-"] can make
    different pairs share a key. *)
Theorem opposite_links_share_group (values : list StoryNode) :
  (∀ s t, groupKey s t = groupKey t s)
  ∧ (∀ s, groupKey s s = s +:+ "-" +:+ s)
  ∧ (∀ i j li lj, i ≠ j →
       graphLinks values !! i = Some li → graphLinks values !! j = Some lj →
       source li = target lj → target li = source lj →
       totalInGroup li = totalInGroup lj ∧ indexInGroup li ≠ indexInGroup lj)
  ∧ groupKey "a" "b-c" = groupKey "a-b" "c".
Proof.
  split_and!; [apply groupKey_sym| |
               |done].
  - intros s. unfold groupKey, String.ltb.
    pose proof (String.compare_antisym s s) as Hs.
    by destruct (String.compare s s).
  - intros i j li lj Hij Hi Hj Hst Hts.
    assert (linkKey li = linkKey lj) as Hkey
      by (unfold linkKey; rewrite Hst, Hts; apply groupKey_sym).
    assert (List.length (graphLinks values) = List.length (rawLinks values)) as Hlen.
    { unfold graphLinks.
      destruct (indexLinks_spec (rawLinks values) [] [] (NoDup_nil_2) (λ _, eq_refl))
        as (_ & _ & Hl & _). simpl in Hl.
      destruct (indexLinks 0 (rawLinks values) []) as [ls gs]. simpl in *.
      by rewrite totalLinks_length. }
    assert (is_Some (rawLinks values !! i)) as [ri Hri].
    { apply lookup_lt_is_Some. rewrite <-Hlen. by apply lookup_lt_Some in Hi. }
    assert (is_Some (rawLinks values !! j)) as [rj Hrj].
    { apply lookup_lt_is_Some. rewrite <-Hlen. by apply lookup_lt_Some in Hj. }
    rewrite (graphLinks_spec values i ri Hri) in Hi.
    rewrite (graphLinks_spec values j rj Hrj) in Hj.
    injection Hi as <-. injection Hj as <-. unfold linkKey in Hkey. simpl in Hkey.
    fold (linkKey ri) in Hkey. fold (linkKey rj) in Hkey. simpl.
    split; [by rewrite Hkey|]. intros [= Heq]. rewrite Hkey in Heq.
    destruct (decide (i < j)%nat) as [Hlt|Hge].
    + assert (take i (rawLinks values) = take i (take j (rawLinks values))) as Ht
        by (rewrite take_take; f_equal; lia).
      rewrite Ht in Heq.
      pose proof (filter_take_lt (λ x, linkKey x = linkKey rj)
                    (take j (rawLinks values)) i ri) as Hlt'.
      rewrite lookup_take_lt in Hlt' by done. specialize (Hlt' Hri Hkey). lia.
    + assert (take j (rawLinks values) = take j (take i (rawLinks values))) as Ht
        by (rewrite take_take; f_equal; lia).
      rewrite Ht in Heq.
      pose proof (filter_take_lt (λ x, linkKey x = linkKey rj)
                    (take i (rawLinks values)) j rj) as Hlt'.
      rewrite lookup_take_lt in Hlt' by lia. specialize (Hlt' Hrj eq_refl). lia.
Qed.

End GraphFacts.

Lemma opposite_links_share_group_witness :
  Visualizer.graphLinks [scene "A" [edge "A" "B"]; scene "B" [edge "B" "A"]] !! 0%nat
    = Some (Visualizer.mkLink "A" "B" "to B" (Some 0%nat) (Some 2%nat))
  ∧ Visualizer.graphLinks [scene "A" [edge "A" "B"]; scene "B" [edge "B" "A"]] !! 1%nat
    = Some (Visualizer.mkLink "B" "A" "to A" (Some 1%nat) (Some 2%nat))
  ∧ Some 0%nat ≠ Some 1%nat.
Proof.
  assert (Visualizer.graphLinks [scene "A" [edge "A" "B"]; scene "B" [edge "B" "A"]]
            !! 0%nat
          = Some (Visualizer.mkLink "A" "B" "to B" (Some 0%nat) (Some 2%nat))) as H0
    by (by vm_compute).
  assert (Visualizer.graphLinks [scene "A" [edge "A" "B"]; scene "B" [edge "B" "A"]]
            !! 1%nat
          = Some (Visualizer.mkLink "B" "A" "to A" (Some 1%nat) (Some 2%nat))) as H1
    by (by vm_compute).
  split_and!; [done..|].
  exact (proj2 (proj1 (proj2 (proj2 (opposite_links_share_group _)))
                  0%nat 1%nat _ _ ltac:(done) H0 H1 eq_refl eq_refl)).
Defined.

(** ** The WAV container *)

Lemma decode_bytes32 (v : Z) : Wav.decodeLE (Wav.bytes32 v) = (v `mod` 4294967296)%Z.
Proof.
  unfold Wav.decodeLE, Wav.bytes32. cbn [foldr].
  assert (0 ≤ v `mod` 4294967296 < 4294967296)%Z as Hu by (apply Z.mod_pos_bound; lia).
  generalize dependent (v `mod` 4294967296)%Z. intros u Hu.
  replace (u / 65536)%Z with (u / 256 / 256)%Z
    by (rewrite Z.div_div by lia; reflexivity).
  replace (u / 16777216)%Z with (u / 256 / 256 / 256)%Z
    by (rewrite !Z.div_div by lia; reflexivity).
  assert (u / 256 / 256 / 256 < 256)%Z
    by (apply Z.div_lt_upper_bound; [lia|]; apply Z.div_lt_upper_bound; [lia|];
        apply Z.div_lt_upper_bound; lia).
  assert (0 ≤ u / 256 / 256 / 256)%Z by (repeat apply Z.div_pos; lia).
  rewrite (Z.mod_small (u / 256 / 256 / 256)) by lia.
  pose proof (Z.div_mod u 256 ltac:(lia)).
  pose proof (Z.div_mod (u / 256) 256 ltac:(lia)).
  pose proof (Z.div_mod (u / 256 / 256) 256 ltac:(lia)).
  lia.
Qed.

Lemma decode_bytes16 (v : Z) : Wav.decodeLE (Wav.bytes16 v) = (v `mod` 65536)%Z.
Proof.
  unfold Wav.decodeLE, Wav.bytes16. cbn [foldr].
  assert (0 ≤ v `mod` 65536 < 65536)%Z as Hu by (apply Z.mod_pos_bound; lia).
  generalize dependent (v `mod` 65536)%Z. intros u Hu.
  assert (u / 256 < 256)%Z by (apply Z.div_lt_upper_bound; lia).
  assert (0 ≤ u / 256)%Z by (apply Z.div_pos; lia).
  rewrite (Z.mod_small (u / 256)) by lia.
  pose proof (Z.div_mod u 256 ltac:(lia)). lia.
Qed.

Lemma bytes32_range (v : Z) : Forall (λ b, 0 ≤ b < 256)%Z (Wav.bytes32 v).
Proof.
  unfold Wav.bytes32. repeat apply Forall_cons_2; try apply Forall_nil_2;
    apply Z.mod_pos_bound; lia.
Qed.

(** The header, byte by byte. *)
Lemma header_bytes (len sampleRate : Z) :
  Wav.header len sampleRate
  = ([82; 73; 70; 70]%Z ++ Wav.bytes32 (36 + len)
     ++ [87; 65; 86; 69; 102; 109; 116; 32; 16; 0; 0; 0; 1; 0; 1; 0]%Z
     ++ Wav.bytes32 sampleRate ++ Wav.bytes32 (sampleRate * 2)
     ++ [2; 0; 16; 0; 100; 97; 116; 97]%Z ++ Wav.bytes32 len)%list.
Proof. reflexivity. Qed.

(** X19. Whatever the samples and the sample rate, [pcmToWav] prepends
    44 bytes to the samples and changes none of them.  The 44 bytes are a
    PCM header: the tags RIFF, WAVE, "fmt " and "data" at offsets 0, 8, 12
    and 36; and, read back little-endian, a format chunk of 16 bytes,
    format 1, one channel, block size 2 and 16 bits per sample, the sample
    rate and twice the sample rate as byte rate, the data length at offset
    40 and the data length plus 36 at offset 4, each modulo 2^32. *)
Theorem wav_header_layout (pcmData : list Z) (sampleRate : Z) :
  let wav := Wav.pcmToWav pcmData sampleRate in
  let len := Z.of_nat (List.length pcmData) in
  List.length wav = (44 + List.length pcmData)%nat
  ∧ drop 44 wav = pcmData
  ∧ Forall (λ b, 0 ≤ b < 256)%Z (take 44 wav)
  ∧ take 4 wav = [82; 73; 70; 70]%Z
  ∧ take 4 (drop 8 wav) = [87; 65; 86; 69]%Z
  ∧ take 4 (drop 12 wav) = [102; 109; 116; 32]%Z
  ∧ take 4 (drop 36 wav) = [100; 97; 116; 97]%Z
  ∧ Wav.getUintLE 4 4 wav = ((36 + len) `mod` 4294967296)%Z
  ∧ Wav.getUintLE 4 16 wav = 16%Z
  ∧ Wav.getUintLE 2 20 wav = 1%Z
  ∧ Wav.getUintLE 2 22 wav = 1%Z
  ∧ Wav.getUintLE 4 24 wav = (sampleRate `mod` 4294967296)%Z
  ∧ Wav.getUintLE 4 28 wav = ((sampleRate * 2) `mod` 4294967296)%Z
  ∧ Wav.getUintLE 2 32 wav = 2%Z
  ∧ Wav.getUintLE 2 34 wav = 16%Z
  ∧ Wav.getUintLE 4 40 wav = (len `mod` 4294967296)%Z.
Proof.
  intros wav len. subst wav. unfold Wav.pcmToWav. fold len.
  rewrite header_bytes. split_and!.
  - rewrite length_app. done.
  - done.
  - change (Forall (λ b, 0 ≤ b < 256)%Z
              ([82; 73; 70; 70]%Z ++ Wav.bytes32 (36 + len)
               ++ [87; 65; 86; 69; 102; 109; 116; 32; 16; 0; 0; 0; 1; 0; 1; 0]%Z
               ++ Wav.bytes32 sampleRate ++ Wav.bytes32 (sampleRate * 2)
               ++ [2; 0; 16; 0; 100; 97; 116; 97]%Z ++ Wav.bytes32 len)).
    repeat (apply Forall_app; split); try apply bytes32_range;
      repeat apply Forall_cons_2; try apply Forall_nil_2; lia.
  - done.
  - done.
  - done.
  - done.
  - exact (decode_bytes32 (36 + len)).
  - done.
  - done.
  - done.
  - exact (decode_bytes32 sampleRate).
  - exact (decode_bytes32 (sampleRate * 2)).
  - done.
  - done.
  - exact (decode_bytes32 len).
Qed.

(** X20. The size fields agree with the file.  When the samples fit (36
    more than their number is below 2^32), the field at offset 4 is the
    length of the file minus 8 and the field at offset 40 is the number of
    sample bytes.  When the sample rate is a natural number below 2^31,
    the byte rate is the sample rate times the block size. *)
Theorem wav_sizes_consistent (pcmData : list Z) (sampleRate : Z) :
  let wav := Wav.pcmToWav pcmData sampleRate in
  ((Z.of_nat (List.length pcmData) + 36 < 4294967296)%Z →
   Wav.getUintLE 4 4 wav = (Z.of_nat (List.length wav) - 8)%Z
   ∧ Wav.getUintLE 4 40 wav = Z.of_nat (List.length (drop 44 wav)))
  ∧ ((0 ≤ sampleRate < 2147483648)%Z →
     Wav.getUintLE 4 24 wav = sampleRate
     ∧ Wav.getUintLE 4 28 wav
       = (Wav.getUintLE 4 24 wav * Wav.getUintLE 2 32 wav)%Z).
Proof.
  intros wav. subst wav. unfold Wav.pcmToWav.
  set (len := Z.of_nat (List.length pcmData)).
  assert (List.length (Wav.header len sampleRate ++ pcmData)
          = (44 + List.length pcmData)%nat) as Hlen by (by rewrite length_app).
  rewrite header_bytes in *. split.
  - intros Hfit. split.
    + transitivity ((36 + len) `mod` 4294967296)%Z;
        [exact (decode_bytes32 (36 + len))|].
      rewrite Z.mod_small by lia. rewrite Hlen. lia.
    + transitivity (len `mod` 4294967296)%Z; [exact (decode_bytes32 len)|].
      rewrite Z.mod_small by lia. done.
  - intros Hsr.
    assert (Wav.getUintLE 4 24
              (([82; 73; 70; 70]%Z ++ Wav.bytes32 (36 + len)
                ++ [87; 65; 86; 69; 102; 109; 116; 32; 16; 0; 0; 0; 1; 0; 1; 0]%Z
                ++ Wav.bytes32 sampleRate ++ Wav.bytes32 (sampleRate * 2)
                ++ [2; 0; 16; 0; 100; 97; 116; 97]%Z ++ Wav.bytes32 len) ++ pcmData)
            = sampleRate) as H24.
    { transitivity (sampleRate `mod` 4294967296)%Z;
        [exact (decode_bytes32 sampleRate)|]. by rewrite Z.mod_small by lia. }
    split; [done|]. rewrite H24.
    transitivity ((sampleRate * 2) `mod` 4294967296)%Z;
      [exact (decode_bytes32 (sampleRate * 2))|].
    rewrite Z.mod_small by lia. done.
Qed.

Lemma wav_sizes_consistent_witness :
  (Z.of_nat (List.length [1; 2; 3; 4]%Z) + 36 < 4294967296)%Z
  ∧ Wav.getUintLE 4 4 (Wav.pcmToWav [1; 2; 3; 4]%Z 24000) = 40%Z.
Proof.
  assert (Z.of_nat (List.length [1; 2; 3; 4]%Z) + 36 < 4294967296)%Z as Hf by done.
  split; [done|].
  exact (proj1 (proj1 (wav_sizes_consistent [1; 2; 3; 4]%Z 24000) Hf)).
Defined.
